(** * NASA space explorer: the gallery script [js/script.js]

    A shallow embedding of the page script: the "Did you know?" fact picker
    ([showRandomFact]), the modal controller ([openModal], [closeModal] and
    the listeners that call them) and the gallery loader (the click handler
    of [getImageBtn]).

    The script works on the regions of the page it looks up by id or class
    when it is loaded.  The page is a record with one field per region; a
    region the lookup did not find is [None] (the script's [null]).  The
    handlers run in a small state monad with exceptions, in which a thrown
    error keeps the changes made to the page so far, as in JavaScript.  The
    click handler of [getImageBtn] is asynchronous: [load_gallery] is the
    handler with both its [await]s settled at once, [resume] the handler
    from one [await] to the next, for calls that overlap.

    Modelling conventions:
    - a field of a picture record is a string or missing ([None] stands for
      an absent key and for [null]); an element of the fetched array is a
      picture record or [null];
    - [document.body] exists (the script tag sits in the body of the page);
    - the markup assigned to [innerHTML] is kept as the assigned string, it
      is not parsed;
    - [Math.random()] is a binary64 number of [0, 1), given by a mantissa
      and an exponent, and its product with the length of the fact list is
      rounded to the nearest binary64 number, ties to even. *)

From Stdlib Require Import String Ascii List PeanoNat ZArith Bool Lia.
From Stdlib Require Import DecimalString.
Import ListNotations.

Set Warnings "-register-all".

Open Scope string_scope.
Open Scope list_scope.

(** ** JavaScript values of record fields *)

Module Js.

(** A field value: a string, or [None] for [undefined] and [null]. *)
Definition value : Type := option string.

(** ToBoolean: [undefined], [null] and the empty string are falsy. *)
Definition truthy (v : value) : bool :=
  match v with
  | Some s => negb (s =? "")
  | None => false
  end.

(** [a || b] *)
Definition or (a b : value) : value := if truthy a then a else b.

(** [a || 'lit'], which is always a string. *)
Definition or_lit (a : value) (lit : string) : string :=
  match a with
  | Some s => if s =? "" then lit else s
  | None => lit
  end.

(** [v === 'lit'] *)
Definition seq (v : value) (lit : string) : bool :=
  match v with
  | Some s => s =? lit
  | None => false
  end.

(** [a && b] for a value [a] and a boolean [b], then used as a condition. *)
Definition and_cond (a : value) (b : bool) : bool := truthy a && b.

End Js.

(** A thrown value: an [Error] object with its [name] and [message]. *)
Record js_error : Type := mkError { err_name : string; message : string }.

(** The double quote, for markup literals. *)
Definition dq : string := String (Ascii.ascii_of_nat 34) EmptyString.

(** Template-literal conversion of a non-negative integer. *)
Definition string_of_nat (n : nat) : string :=
  NilEmpty.string_of_uint (Nat.to_uint n).

(** ** Data model *)

(** A picture record of the APOD data set. *)
Record item : Type := mkItem {
  media_type : Js.value;
  url : Js.value;
  hdurl : Js.value;
  thumbnail_url : Js.value;
  title : Js.value;
  date : Js.value;
  explanation : Js.value
}.

(** An element node built by [document.createElement], or a text node.
    [props] lists the properties and attributes the script has set, in the
    order it set them. *)
Inductive node : Type :=
| Text (s : string)
| Elem (tag : string) (props : list (string * string)) (kids : list node).

(** Setting [textContent] replaces the children by one text node, or by
    nothing for the empty string. *)
Definition text_kids (s : string) : list node :=
  if s =? "" then [] else [Text s].

Fixpoint lookup_prop (k : string) (ps : list (string * string)) : option string :=
  match ps with
  | [] => None
  | (k', v) :: ps' => if k' =? k then Some v else lookup_prop k ps'
  end.

Definition node_prop (k : string) (n : node) : option string :=
  match n with
  | Text _ => None
  | Elem _ ps _ => lookup_prop k ps
  end.

Definition node_tag (n : node) : option string :=
  match n with
  | Text _ => None
  | Elem t _ _ => Some t
  end.

Definition node_kids (n : node) : list node :=
  match n with
  | Text _ => []
  | Elem _ _ ks => ks
  end.

(** A child of the gallery region: what an [innerHTML] assignment left
    there, or a tile appended by the loader together with the record its
    click listener captured. *)
Inductive gallery_child : Type :=
| Parsed (html : string)
| Tile (el : node) (on_click : option item).

Record gallery_el : Type := mkGallery {
  g_parent : bool;                 (* gallery.parentNode is not null *)
  g_kids : list gallery_child
}.

(** Where a "did-you-know" section sits. *)
Inductive place : Type :=
| InMarkup          (* it came with the page *)
| BeforeGallery     (* gallery.parentNode.insertBefore(factSection, gallery) *)
| BodyFirst.        (* document.body.insertBefore(factSection, document.body.firstChild) *)

(** An element with id "did-you-know". *)
Record fact_el : Type := mkFact {
  f_place : place;
  f_tag : string;
  f_props : list (string * string);
  f_kids : list node
}.

Record modal_el : Type := mkModal {
  aria_hidden : option string     (* the aria-hidden attribute, if set *)
}.

Record image_el : Type := mkImage {
  img_parent : bool;               (* modalImage.parentNode is not null *)
  img_display : string;            (* modalImage.style.display *)
  img_src : string;
  img_alt : string
}.

Inductive focus_target : Type :=
| FocusElsewhere
| FocusCloseBtn.

(** The page as the script sees it.  [videos_before] and [videos_after] are
    the elements with id "modal-video", in document order, before and after
    the point where [openModal] puts its iframe: right after the modal
    image when the image has a parent, and the end of the modal otherwise.
    An iframe inserted after the image is the first element after that
    point; an iframe appended to the modal is the last element before it.
    [document.getElementById('modal-video')] is the first element of
    [videos_before ++ videos_after]. *)
Record page : Type := mkPage {
  getImageBtn : bool;                      (* the trigger button was found *)
  gallery : option gallery_el;
  fact_sections : list fact_el;            (* elements with id "did-you-know" *)
  modal : option modal_el;
  modalImage : option image_el;
  modalTitle : option string;              (* textContent of each text region *)
  modalDate : option string;
  modalExplanation : option string;
  modalCloseBtn : bool;
  modalOverlay : bool;
  videos_before : list node;
  videos_after : list node;
  body_overflow : string;                  (* document.body.style.overflow *)
  active : focus_target;                   (* document.activeElement *)
  console : list (string * js_error)       (* console.error entries, oldest first *)
}.

Definition videos (st : page) : list node :=
  videos_before st ++ videos_after st.

(** Field updates. *)
Definition set_gallery (g : option gallery_el) (st : page) : page :=
  mkPage (getImageBtn st) g (fact_sections st) (modal st) (modalImage st)
    (modalTitle st) (modalDate st) (modalExplanation st) (modalCloseBtn st)
    (modalOverlay st) (videos_before st) (videos_after st) (body_overflow st)
    (active st) (console st).

Definition set_fact_sections (l : list fact_el) (st : page) : page :=
  mkPage (getImageBtn st) (gallery st) l (modal st) (modalImage st)
    (modalTitle st) (modalDate st) (modalExplanation st) (modalCloseBtn st)
    (modalOverlay st) (videos_before st) (videos_after st) (body_overflow st)
    (active st) (console st).

Definition set_modal (m : option modal_el) (st : page) : page :=
  mkPage (getImageBtn st) (gallery st) (fact_sections st) m (modalImage st)
    (modalTitle st) (modalDate st) (modalExplanation st) (modalCloseBtn st)
    (modalOverlay st) (videos_before st) (videos_after st) (body_overflow st)
    (active st) (console st).

Definition set_modalImage (i : option image_el) (st : page) : page :=
  mkPage (getImageBtn st) (gallery st) (fact_sections st) (modal st) i
    (modalTitle st) (modalDate st) (modalExplanation st) (modalCloseBtn st)
    (modalOverlay st) (videos_before st) (videos_after st) (body_overflow st)
    (active st) (console st).

Definition set_modalTitle (t : option string) (st : page) : page :=
  mkPage (getImageBtn st) (gallery st) (fact_sections st) (modal st)
    (modalImage st) t (modalDate st) (modalExplanation st) (modalCloseBtn st)
    (modalOverlay st) (videos_before st) (videos_after st) (body_overflow st)
    (active st) (console st).

Definition set_modalDate (t : option string) (st : page) : page :=
  mkPage (getImageBtn st) (gallery st) (fact_sections st) (modal st)
    (modalImage st) (modalTitle st) t (modalExplanation st) (modalCloseBtn st)
    (modalOverlay st) (videos_before st) (videos_after st) (body_overflow st)
    (active st) (console st).

Definition set_modalExplanation (t : option string) (st : page) : page :=
  mkPage (getImageBtn st) (gallery st) (fact_sections st) (modal st)
    (modalImage st) (modalTitle st) (modalDate st) t (modalCloseBtn st)
    (modalOverlay st) (videos_before st) (videos_after st) (body_overflow st)
    (active st) (console st).

Definition set_videos (b a : list node) (st : page) : page :=
  mkPage (getImageBtn st) (gallery st) (fact_sections st) (modal st)
    (modalImage st) (modalTitle st) (modalDate st) (modalExplanation st)
    (modalCloseBtn st) (modalOverlay st) b a (body_overflow st) (active st)
    (console st).

Definition set_body_overflow (o : string) (st : page) : page :=
  mkPage (getImageBtn st) (gallery st) (fact_sections st) (modal st)
    (modalImage st) (modalTitle st) (modalDate st) (modalExplanation st)
    (modalCloseBtn st) (modalOverlay st) (videos_before st) (videos_after st)
    o (active st) (console st).

Definition set_active (f : focus_target) (st : page) : page :=
  mkPage (getImageBtn st) (gallery st) (fact_sections st) (modal st)
    (modalImage st) (modalTitle st) (modalDate st) (modalExplanation st)
    (modalCloseBtn st) (modalOverlay st) (videos_before st) (videos_after st)
    (body_overflow st) f (console st).

Definition set_console (c : list (string * js_error)) (st : page) : page :=
  mkPage (getImageBtn st) (gallery st) (fact_sections st) (modal st)
    (modalImage st) (modalTitle st) (modalDate st) (modalExplanation st)
    (modalCloseBtn st) (modalOverlay st) (videos_before st) (videos_after st)
    (body_overflow st) (active st) c.

(** ** The monad of handlers: state, and exceptions that keep the state *)

Inductive completion (A : Type) : Type :=
| Normal (a : A)
| Throw (e : js_error).
Arguments Normal {A} a.
Arguments Throw {A} e.

Definition M (A : Type) : Type := page -> completion A * page.

Definition ret {A} (a : A) : M A := fun st => (Normal a, st).

Definition bind {A B} (c : M A) (k : A -> M B) : M B :=
  fun st =>
    match c st with
    | (Normal a, st') => k a st'
    | (Throw e, st') => (Throw e, st')
    end.

Definition throw {A} (e : js_error) : M A := fun st => (Throw e, st).

(** [try { body } catch (error) { handler error }] *)
Definition try_catch {A} (body : M A) (handler : js_error -> M A) : M A :=
  fun st =>
    match body st with
    | (Normal a, st') => (Normal a, st')
    | (Throw e, st') => handler e st'
    end.

Definition get : M page := fun st => (Normal st, st).
Definition modify (f : page -> page) : M unit := fun st => (Normal tt, f st).

Declare Scope js_scope.
Delimit Scope js_scope with js.
Notation "x <- c ;; k" := (bind c (fun x => k))
  (at level 61, c at next level, right associativity) : js_scope.
Notation "c ;; k" := (bind c (fun _ => k))
  (at level 61, right associativity) : js_scope.
Open Scope js_scope.

(** The page a handler leaves, and how it completed. *)
Definition exec {A} (c : M A) (st : page) : page := snd (c st).
Definition result {A} (c : M A) (st : page) : completion A := fst (c st).

(** [data.forEach(f)]: the callback runs on each element in order; a throw
    ends the loop. *)
Fixpoint forEach {A} (l : list A) (f : A -> M unit) : M unit :=
  match l with
  | [] => ret tt
  | x :: l' => f x ;; forEach l' f
  end.

(** Reading a property of a value that may be [null]. *)
Definition prop (it : option item) (name : string) (f : item -> Js.value)
  : M Js.value :=
  match it with
  | Some r => ret (f r)
  | None =>
      throw (mkError "TypeError"
        ("Cannot read properties of null (reading '" ++ name ++ "')"))
  end.

(** ** Fact picker *)

(** The facts shown above the gallery. *)
Definition spaceFacts : list string := [
  "Venus spins backward compared to most planets — the Sun rises in the west there.";
  "A day on Venus (one rotation) is longer than a year on Venus (one orbit).";
  "Neutron stars are so dense that a teaspoon of their material would weigh about a billion tons on Earth.";
  "Jupiter's Great Red Spot is a gigantic storm larger than Earth that has raged for centuries.";
  "There are more stars in the observable universe than grains of sand on all Earth's beaches combined.";
  "Saturn could float in water because its average density is less than water.";
  "The largest volcano in the solar system is Olympus Mons on Mars — it's about three times taller than Mount Everest.";
  "Light from the Sun takes about 8 minutes and 20 seconds to reach Earth.";
  "A year on Mercury only lasts 88 Earth days.";
  "The Moon is slowly moving away from Earth at about 3.8 centimeters per year."
].

(** A finite binary64 number that is not negative: [mantissa * 2 ^ exponent]. *)
Record double : Type := mkDouble { mantissa : Z; exponent : Z }.

(** The numbers [Math.random()] can return, the binary64 numbers of
    [0, 1): a mantissa of at most 53 bits, an exponent from -1074 on, and
    a value below one. *)
Definition is_unit_double (r : double) : bool :=
  ((0 <=? mantissa r) && (mantissa r <? 2 ^ 53)
   && (-1074 <=? exponent r) && (exponent r <=? 0)
   && (mantissa r <? 2 ^ (- exponent r)))%Z.

Definition unit_double (r : double) : Prop := is_unit_double r = true.

(** [P / 2 ^ k] rounded to the nearest integer, a tie going to the even
    one. *)
Definition round_half_even (P k : Z) : Z :=
  (let q := P / 2 ^ k in
   let rest := 2 * (P mod 2 ^ k) in
   if rest <? 2 ^ k then q
   else if 2 ^ k <? rest then q + 1
   else if Z.even q then q else q + 1)%Z.

(** The binary64 number nearest to [P * 2 ^ e], for an integer [P] that
    is not negative and [e] from -1074 on: [P] itself when it fits in 53
    bits, else its 53 leading bits rounded to nearest, ties to even (a
    mantissa rounded up to [2 ^ 53] stands for [2 ^ 52] with the next
    exponent). *)
Definition round53 (P e : Z) : double :=
  (if P <? 2 ^ 53 then mkDouble P e
   else let k := Z.log2 P - 52 in mkDouble (round_half_even P k) (e + k))%Z.

(** [r * n] for a number [r] and the length [n] of an array, which is an
    integer below [2 ^ 32] and so a binary64 number itself. *)
Definition mul_length (r : double) (n : nat) : double :=
  round53 (mantissa r * Z.of_nat n) (exponent r).

(** [Math.floor] of a number that is not negative. *)
Definition Math_floor (d : double) : Z :=
  Z.shiftl (mantissa d) (exponent d).

(** [Math.floor(r * facts.length)] for the draw [r] of [Math.random()]. *)
Definition fact_index (facts : list string) (r : double) : Z :=
  Math_floor (mul_length r (length facts)).

(** [facts[i]]: [undefined] outside of [0 .. length - 1]. *)
Definition index (facts : list string) (i : Z) : Js.value :=
  if (i <? 0)%Z then None else nth_error facts (Z.to_nat i).

(** [facts[idx] || 'Space is full of surprises!'] *)
Definition pick_fact (facts : list string) (r : double) : string :=
  Js.or_lit (index facts (fact_index facts r)) "Space is full of surprises!".

(** The first node of [l], in document order, that [f] rewrites. *)
Definition first_map (f : node -> option node)
  : list node -> option (list node) :=
  fix go (l : list node) : option (list node) :=
    match l with
    | [] => None
    | k :: l' =>
        match f k with
        | Some k' => Some (k' :: l')
        | None => option_map (cons k) (go l')
        end
    end.

(** Sets the [textContent] of the first element with tag [tag] among [n]
    and its descendants (the order of [querySelector]). *)
Fixpoint set_text_in (tag txt : string) (n : node) : option node :=
  match n with
  | Text _ => None
  | Elem t ps ks =>
      if t =? tag then Some (Elem t ps (text_kids txt))
      else option_map (Elem t ps) (first_map (set_text_in tag txt) ks)
  end.

(** The first of the nodes of [l] on which [f] finds something. *)
Definition first_some {A} (f : node -> option A) : list node -> option A :=
  fix go (l : list node) : option A :=
    match l with
    | [] => None
    | k :: l' =>
        match f k with
        | Some a => Some a
        | None => go l'
        end
    end.

(** [querySelector(tag)] on the parent of [n], restricted to [n]. *)
Fixpoint find_in (tag : string) (n : node) : option node :=
  match n with
  | Text _ => None
  | Elem t ps ks =>
      if t =? tag then Some n else first_some (find_in tag) ks
  end.

(** The [textContent] getter: the text of all descendants, in order. *)
Fixpoint textContent (n : node) : string :=
  match n with
  | Text s => s
  | Elem _ _ ks => fold_right (fun k acc => (textContent k ++ acc)%string) "" ks
  end.

(** The section built by lines 33-53 of the script, put at [pl]. *)
Definition new_fact_section (pl : place) : fact_el :=
  mkFact pl "section"
    [("id", "did-you-know"); ("className", "did-you-know");
     ("style.textAlign", "center"); ("style.maxWidth", "720px");
     ("style.margin", "1.25rem auto"); ("style.padding", "0.5rem 1rem")]
    [Elem "h2" [("style.margin", "0 0 0.5rem 0")] [Text "Did you know?"];
     Elem "p" [("style.margin", "0.25rem 0 0 0")] []].

(** Lines 55-60: before the gallery when it has a parent, else first in
    the body. *)
Definition insertion_place (st : page) : place :=
  match gallery st with
  | Some g => if g_parent g then BeforeGallery else BodyFirst
  | None => BodyFirst
  end.

(** [sec.querySelector(tag)]: the descendants of the section only. *)
Definition querySelector (tag : string) (sec : fact_el) : option node :=
  first_some (find_in tag) (f_kids sec).

(** Line 63: [factSection.querySelector('p') ||
    factSection.appendChild(document.createElement('p'))]; afterwards the
    paragraph [pEl] is the first [p] below the section. *)
Definition ensure_p (sec : fact_el) : fact_el :=
  match querySelector "p" sec with
  | Some _ => sec
  | None =>
      mkFact (f_place sec) (f_tag sec) (f_props sec)
        (f_kids sec ++ [Elem "p" [] []])
  end.

(** Line 65: [pEl.textContent = txt]. *)
Definition set_p_text (txt : string) (sec : fact_el) : fact_el :=
  match first_map (set_text_in "p" txt) (f_kids sec) with
  | Some ks => mkFact (f_place sec) (f_tag sec) (f_props sec) ks
  | None => sec
  end.

(** [showRandomFact] over a list of facts, for the draw [r]. *)
Definition showRandomFact_with (facts : list string) (r : double) : M unit :=
  st <- get ;;
  let '(factSection, others) :=
    match fact_sections st with
    | found :: others => (found, others)
    | [] => (new_fact_section (insertion_place st), [])
    end in
  let factSection := ensure_p factSection in
  let factSection := set_p_text (pick_fact facts r) factSection in
  modify (set_fact_sections (factSection :: others)).

Definition showRandomFact (r : double) : M unit :=
  showRandomFact_with spaceFacts r.

(** The fact on display: the text of the first paragraph of the first
    "did-you-know" section. *)
Definition fact_text (st : page) : option string :=
  match fact_sections st with
  | sec :: _ => option_map textContent (querySelector "p" sec)
  | [] => None
  end.

(** ** Modal controller *)

(** [!!x] for a reference that may be [null]. *)
Definition present {A} (o : option A) : bool :=
  match o with
  | Some _ => true
  | None => false
  end.

Definition null_error (what : string) : js_error :=
  mkError "TypeError" ("Cannot read properties of null (" ++ what ++ ")").

(** [const previousIframe = document.getElementById('modal-video');
    if (previousIframe) previousIframe.remove();] *)
Definition remove_modal_video (st : page) : page :=
  set_videos
    (tl (videos_before st))
    (match videos_before st with
     | [] => tl (videos_after st)
     | _ :: _ => videos_after st
     end) st.

(** Lines 94-101: the iframe of a video record. *)
Definition new_iframe (src : string) : node :=
  Elem "iframe"
    [("id", "modal-video"); ("src", src); ("width", "100%");
     ("height", "420"); ("frameborder", "0");
     ("allow", "accelerometer; autoplay; clipboard-write; encrypted-media; gyroscope; picture-in-picture");
     ("allowfullscreen", "")]
    [].

(** [modalImage && modalImage.parentNode] *)
Definition image_has_parent (st : page) : bool :=
  match modalImage st with
  | Some i => img_parent i
  | None => false
  end.

(** Lines 104-108.  With an image that has a parent,
    [modalImage.parentNode.insertBefore(iframe, modalImage.nextSibling)]
    puts the iframe right after the image, before every element that
    follows the image: it becomes the first of [videos_after].  Otherwise
    [modal.appendChild(iframe)] puts it at the end of the modal, after
    every element of the modal: it becomes the last of [videos_before]. *)
Definition insert_iframe (iframe : node) (st : page) : page :=
  set_videos
    (if image_has_parent st then videos_before st
     else videos_before st ++ [iframe])
    (if image_has_parent st then iframe :: videos_after st
     else videos_after st) st.

(** [if (modalImage) { ... }] *)
Definition update_image (f : image_el -> image_el) : M unit :=
  modify (fun st => set_modalImage (option_map f (modalImage st)) st).

(** [modal.setAttribute('aria-hidden', v)] *)
Definition modal_set_aria_hidden (v : string) : M unit :=
  fun st =>
    match modal st with
    | Some _ => (Normal tt, set_modal (Some (mkModal (Some v))) st)
    | None => (Throw (null_error "reading 'setAttribute'"), st)
    end.

(** [if (region) region.textContent = txt] for the three text regions. *)
Definition set_title_text (txt : string) : M unit :=
  modify (fun st =>
    set_modalTitle (option_map (fun _ => txt) (modalTitle st)) st).

Definition set_date_text (txt : string) : M unit :=
  modify (fun st =>
    set_modalDate (option_map (fun _ => txt) (modalDate st)) st).

Definition set_explanation_text (txt : string) : M unit :=
  modify (fun st =>
    set_modalExplanation (option_map (fun _ => txt) (modalExplanation st)) st).

(** [if (modalCloseBtn) modalCloseBtn.focus()] *)
Definition focus_close_button : M unit :=
  modify (fun st =>
    set_active (if modalCloseBtn st then FocusCloseBtn else active st) st).

Definition openModal (it : option item) : M unit :=
  st <- get ;;
  if negb (present it) || negb (present (modal st)) then ret tt else
  modify remove_modal_video ;;
  mt <- prop it "media_type" media_type ;;
  (if Js.seq mt "video" then
     update_image (fun i =>
       mkImage (img_parent i) "none" (img_src i) (img_alt i)) ;;
     u <- prop it "url" url ;;
     t <- prop it "thumbnail_url" thumbnail_url ;;
     modify (insert_iframe (new_iframe (Js.or_lit (Js.or u t) "")))
   else
     h <- prop it "hdurl" hdurl ;;
     u <- prop it "url" url ;;
     ti <- prop it "title" title ;;
     update_image (fun i =>
       mkImage (img_parent i) "" (Js.or_lit (Js.or h u) "")
         (Js.or_lit ti "Space image"))) ;;
  ti <- prop it "title" title ;;
  set_title_text (Js.or_lit ti "Untitled") ;;
  d <- prop it "date" date ;;
  set_date_text (Js.or_lit d "") ;;
  e <- prop it "explanation" explanation ;;
  set_explanation_text (Js.or_lit e "") ;;
  modal_set_aria_hidden "false" ;;
  modify (set_body_overflow "hidden") ;;
  focus_close_button.

Definition closeModal : M unit :=
  st <- get ;;
  if negb (present (modal st)) then ret tt else
  modal_set_aria_hidden "true" ;;
  modify remove_modal_video ;;
  update_image (fun i => mkImage (img_parent i) "" "" (img_alt i)) ;;
  modify (set_body_overflow "").

(** The [keydown] listener of the window. *)
Definition keydown (key : string) : M unit :=
  st <- get ;;
  match modal st with
  | None => ret tt
  | Some m =>
      if (key =? "Escape") &&
         match aria_hidden m with
         | Some v => v =? "false"
         | None => false
         end
      then closeModal
      else ret tt
  end.

(** The [click] listener of the overlay; [data_close] is
    [e.target.dataset.close]. *)
Definition overlay_click (data_close : Js.value) : M unit :=
  if Js.truthy data_close then closeModal else ret tt.

(** ** Gallery loader *)

(** What [response.json()] can resolve to. *)
Inductive payload : Type :=
| PScalar (json : string)           (* null, a boolean, a number or a string *)
| PObject (o : item)
| PArray (elems : list (option item)).

Definition isArray (p : payload) : bool :=
  match p with
  | PArray _ => true
  | _ => false
  end.

Definition elements (p : payload) : list (option item) :=
  match p with
  | PArray l => l
  | _ => []
  end.

Inductive json_outcome : Type :=
| JsonRejected (e : js_error)       (* the body is not JSON *)
| JsonParsed (p : payload).

Record response : Type := mkResponse {
  status : nat;
  body : json_outcome
}.

(** [response.ok]: the status is in the range 200-299. *)
Definition ok (r : response) : bool :=
  (200 <=? status r)%nat && (status r <=? 299)%nat.

Inductive fetch_outcome : Type :=
| FetchRejected (e : js_error)      (* network failure *)
| FetchResolved (r : response).

(** [await fetch(apodData)] *)
Definition await_fetch (o : fetch_outcome) : M response :=
  match o with
  | FetchRejected e => throw e
  | FetchResolved r => ret r
  end.

(** [await response.json()] *)
Definition await_json (r : response) : M payload :=
  match body r with
  | JsonRejected e => throw e
  | JsonParsed p => ret p
  end.

(** [gallery.innerHTML = html] *)
Definition gallery_set_innerHTML (html : string) : M unit :=
  fun st =>
    match gallery st with
    | Some g =>
        (Normal tt,
         set_gallery
           (Some (mkGallery (g_parent g)
                    (if html =? "" then [] else [Parsed html]))) st)
    | None => (Throw (null_error "setting 'innerHTML'"), st)
    end.

(** [if (gallery) gallery.appendChild(itemEl)] *)
Definition gallery_appendChild (c : gallery_child) : M unit :=
  modify (fun st =>
    set_gallery
      (option_map (fun g => mkGallery (g_parent g) (g_kids g ++ [c]))
         (gallery st)) st).

(** [console.error(label, error)] *)
Definition console_error (label : string) (e : js_error) : M unit :=
  modify (fun st => set_console (console st ++ [(label, e)]) st).

Definition loading_markup : string :=
  "<p class=" ++ dq ++ "loading" ++ dq ++ ">🔄 Loading space photos…</p>".

Definition no_images_markup : string := "<p>No images found.</p>".

Definition error_markup (e : js_error) : string :=
  "<p class=" ++ dq ++ "error" ++ dq ++ ">Error loading images: "
    ++ message e ++ "</p>".

(** The tile of a record (lines 198-234). *)
Definition tile_of (isVideo : bool) (imgSrc alt ti d : string) : node :=
  let img := Elem "img" [("src", imgSrc); ("alt", alt); ("loading", "lazy")] [] in
  let title := Elem "h3" [] (text_kids ti) in
  let date := Elem "p" [("className", "date")] (text_kids d) in
  let overlay :=
    if isVideo
    then [Elem "span" [("className", "play-overlay"); ("aria-hidden", "true")]
            [Text "▶"]]
    else [] in
  Elem "div" [("className", "gallery-item")] (overlay ++ [img; title; date]).

(** The callback of [data.forEach]. *)
Definition render_item (it : option item) : M unit :=
  mt <- prop it "media_type" media_type ;;
  let isVideo := Js.and_cond mt (Js.seq mt "video") in
  imgSrc <-
    (if isVideo then
       t <- prop it "thumbnail_url" thumbnail_url ;;
       u <- prop it "url" url ;;
       ret (Js.or_lit (Js.or t u) "")
     else
       u <- prop it "url" url ;;
       ret (Js.or_lit u "")) ;;
  ti <- prop it "title" title ;;
  d <- prop it "date" date ;;
  let itemEl :=
    tile_of isVideo imgSrc (Js.or_lit ti "Space image")
      (Js.or_lit ti "Untitled") (Js.or_lit d "") in
  gallery_appendChild (Tile itemEl it).

(** The [catch (error)] block of the click handler. *)
Definition show_load_error (error : js_error) : M unit :=
  gallery_set_innerHTML (error_markup error) ;;
  console_error "Failed to load APOD data:" error.

(** The [try ... catch] statement of the click handler: what runs once the
    fetch has settled with outcome [o]. *)
Definition load_gallery (o : fetch_outcome) : M unit :=
  try_catch
    (response <- await_fetch o ;;
     (if negb (ok response)
      then throw (mkError "Error"
             ("Network response was not ok ("
                ++ string_of_nat (status response) ++ ")"))
      else ret tt) ;;
     data <- await_json response ;;
     if negb (isArray data) || (length (elements data) =? 0)%nat
     then gallery_set_innerHTML no_images_markup
     else
       gallery_set_innerHTML "" ;;
       forEach (elements data) render_item)
    show_load_error.

(** The click handler of [getImageBtn], for a fetch that settles with [o]. *)
Definition getImageBtn_click (o : fetch_outcome) : M unit :=
  st <- get ;;
  if negb (present (gallery st)) then ret tt else
  gallery_set_innerHTML loading_markup ;;
  load_gallery o.

(** *** The handler between its suspensions

    The handler is an [async] function: it runs from the click to
    [await fetch(apodData)] (line 179), is resumed there when the fetch has
    settled and runs to [await response.json()] (line 185) or to its end,
    and is resumed there when the body has been read.  The calls of
    several clicks are suspended side by side and resumed in the order in
    which their promises settle. *)

(** The click handler up to its first [await] (lines 172-175): it returns
    at once on a page without the gallery, else it shows the placeholder
    and waits for the fetch.  The result tells whether it waits. *)
Definition click_begin : M bool :=
  st <- get ;;
  if negb (present (gallery st)) then ret false else
  gallery_set_innerHTML loading_markup ;;
  ret true.

(** A call of the handler: suspended at line 179, where [o] is how its
    fetch settles; suspended at line 185 with its response, whose body is
    how the reading settles; or returned. *)
Inductive call : Type :=
| AwaitingFetch (o : fetch_outcome)
| AwaitingJson (r : response)
| Returned.

(** The handler resumed at line 179, up to line 185 or to its end. *)
Definition resume_fetch (o : fetch_outcome) : M call :=
  try_catch
    (response <- await_fetch o ;;
     (if negb (ok response)
      then throw (mkError "Error"
             ("Network response was not ok ("
                ++ string_of_nat (status response) ++ ")"))
      else ret tt) ;;
     ret (AwaitingJson response))
    (fun error => show_load_error error ;; ret Returned).

(** The handler resumed at line 185, up to its end. *)
Definition resume_json (response : response) : M call :=
  try_catch
    (data <- await_json response ;;
     (if negb (isArray data) || (length (elements data) =? 0)%nat
      then gallery_set_innerHTML no_images_markup
      else
        gallery_set_innerHTML "" ;;
        forEach (elements data) render_item) ;;
     ret Returned)
    (fun error => show_load_error error ;; ret Returned).

Definition resume (c : call) : M call :=
  match c with
  | AwaitingFetch o => resume_fetch o
  | AwaitingJson r => resume_json r
  | Returned => ret Returned
  end.

Fixpoint set_nth {A} (i : nat) (x : A) (l : list A) : list A :=
  match l, i with
  | [], _ => []
  | _ :: l', O => x :: l'
  | y :: l', S i' => y :: set_nth i' x l'
  end.

(** What happens on the page while galleries load: the trigger is clicked
    and the handler called, its fetch settling with [o] later on; or the
    promise that the call of click number [i] awaits settles, and the call
    is resumed. *)
Inductive step : Type :=
| Click (o : fetch_outcome)
| Settle (i : nat).

(** One step on the page and the calls made so far, in the order of their
    clicks.  A call whose [catch] block throws has ended as well. *)
Definition run_step (s : step) (sys : page * list call) : page * list call :=
  match s with
  | Click o =>
      match click_begin (fst sys) with
      | (Normal true, st') => (st', snd sys ++ [AwaitingFetch o])
      | (_, st') => (st', snd sys ++ [Returned])
      end
  | Settle i =>
      match nth_error (snd sys) i with
      | Some c =>
          match resume c (fst sys) with
          | (Normal c', st') => (st', set_nth i c' (snd sys))
          | (Throw _, st') => (st', set_nth i Returned (snd sys))
          end
      | None => sys
      end
  end.

Definition run_steps (steps : list step) (sys : page * list call)
  : page * list call :=
  fold_left (fun x s => run_step s x) steps sys.

(** ** Events of the page *)

Inductive event : Type :=
| ClickGetImages (o : fetch_outcome)
| ClickTile (i : nat)
| ClickClose
| ClickOverlay (data_close : Js.value)
| KeyDown (key : string).

(** The listeners the script registers (lines 149-171 and 237). *)
Definition dispatch (e : event) : M unit :=
  st <- get ;;
  match e with
  | ClickGetImages o =>
      if getImageBtn st then getImageBtn_click o else ret tt
  | ClickTile i =>
      match gallery st with
      | Some g =>
          match nth_error (g_kids g) i with
          | Some (Tile _ it) => openModal it
          | _ => ret tt
          end
      | None => ret tt
      end
  | ClickClose => if modalCloseBtn st then closeModal else ret tt
  | ClickOverlay data_close =>
      if modalOverlay st then overlay_click data_close else ret tt
  | KeyDown key => keydown key
  end.

(** The operations of the modal controller, for sequences of them. *)
Inductive modal_op : Type :=
| Open (it : option item)
| Close.

Definition run_op (op : modal_op) : M unit :=
  match op with
  | Open it => openModal it
  | Close => closeModal
  end.

Definition run_ops (ops : list modal_op) (st : page) : page :=
  fold_left (fun s op => exec (run_op op) s) ops st.

(** ** Vocabulary of the properties *)

(** A field that [||] skips: absent, [null] or the empty string. *)
Definition missing (v : Js.value) : Prop := v = None \/ v = Some "".

(** The markup structure of a node: its elements without their text. *)
Fixpoint elements_only (n : node) : node :=
  match n with
  | Text s => Text s
  | Elem t ps ks =>
      Elem t ps
        (flat_map (fun k =>
           match k with
           | Text _ => []
           | Elem _ _ _ => [elements_only k]
           end) ks)
  end.

(** The children of an element without their text nodes. *)
Definition element_kids (ks : list node) : list node :=
  flat_map (fun k =>
    match k with
    | Text _ => []
    | Elem _ _ _ => [elements_only k]
    end) ks.

(** The structure of the fact regions of the page: every region with the
    text nodes taken out. *)
Definition fact_structure (st : page) : list fact_el :=
  map (fun s =>
         mkFact (f_place s) (f_tag s) (f_props s) (element_kids (f_kids s)))
      (fact_sections st).

(** The page after the fact picker has run for each draw of [rs] in turn. *)
Definition run_facts (rs : list double) (st : page) : page :=
  fold_left (fun s r => exec (showRandomFact r) s) rs st.

(** The displayed text is one of the facts, found at an index in range. *)
Definition displays_listed_fact (facts : list string) (r : double) : Prop :=
  (0 <= fact_index facts r < Z.of_nat (length facts))%Z /\
  In (pick_fact facts r) facts.

(** A page that provides every region the script looks up, with the modal
    hidden and the gallery empty. *)
Definition full_page : page :=
  mkPage true (Some (mkGallery true [])) []
    (Some (mkModal (Some "true"))) (Some (mkImage true "" "" ""))
    (Some "") (Some "") (Some "") true true [] [] "" FocusElsewhere [].

(** A page on which none of the lookups succeeded. *)
Definition bare_page : page :=
  mkPage false None [] None None None None None false false [] [] ""
    FocusElsewhere [].

(** The children of the gallery region, none when the region is absent. *)
Definition gallery_children (st : page) : list gallery_child :=
  match gallery st with
  | Some g => g_kids g
  | None => []
  end.

Definition is_tile (c : gallery_child) : bool :=
  match c with
  | Tile _ _ => true
  | Parsed _ => false
  end.

(** The tiles of the gallery. *)
Definition tiles (st : page) : list gallery_child :=
  filter is_tile (gallery_children st).

(** A tile carries the play marker when one of its children has the class
    "play-overlay". *)
Definition has_play_marker (el : node) : bool :=
  existsb (fun k =>
    match node_prop "className" k with
    | Some c => c =? "play-overlay"
    | None => false
    end) (node_kids el).

(** The tile that [render_item] builds for the record [r]. *)
Definition tile_for (r : item) : node :=
  let isVideo := Js.and_cond (media_type r) (Js.seq (media_type r) "video") in
  tile_of isVideo
    (if isVideo then Js.or_lit (Js.or (thumbnail_url r) (url r)) ""
     else Js.or_lit (url r) "")
    (Js.or_lit (title r) "Space image")
    (Js.or_lit (title r) "Untitled")
    (Js.or_lit (date r) "").

(** The gallery child of a record: its tile, whose click listener holds
    the record. *)
Definition tile_child (r : item) : gallery_child :=
  Tile (tile_for r) (Some r).

(** The gallery holds exactly one tile per element of [data], in the order
    of [data], each with the play marker exactly for a video record. *)
Definition one_tile_per_record (data : list (option item)) (st : page) : Prop :=
  Forall2 (fun c it =>
    exists el, c = Tile el it /\
      (has_play_marker el = true <->
       exists r, it = Some r /\ media_type r = Some "video"))
    (gallery_children st) data.

(** A fetch that resolves with status [s] and a body that parses to the
    array [data]. *)
Definition array_response (s : nat) (data : list (option item)) : fetch_outcome :=
  FetchResolved (mkResponse s (JsonParsed (PArray data))).

(** The error that the handler throws for a response that is not ok. *)
Definition not_ok_error (r : response) : js_error :=
  mkError "Error"
    ("Network response was not ok (" ++ string_of_nat (status r) ++ ")").

(** The gallery shows the error message of [e], which quotes the message of
    [e], and nothing else; [e] is the newest entry of the console. *)
Definition shows_error (e : js_error) (before after : page) : Prop :=
  gallery_children after = [Parsed (error_markup e)] /\
  (exists pre post, error_markup e = (pre ++ message e ++ post)%string) /\
  tiles after = [] /\
  console after = console before ++ [("Failed to load APOD data:", e)].

(** The page without the content of its gallery region and without the
    console, which is not part of the document. *)
Definition outside_gallery (st : page) : page :=
  set_console []
    (set_gallery (option_map (fun g => mkGallery (g_parent g) []) (gallery st))
       st).

(** A handler that changes nothing but the content of the gallery and the
    console. *)
Definition keeps_outside_gallery {A} (c : M A) : Prop :=
  forall st, outside_gallery (snd (c st)) = outside_gallery st.

(** The image source that the wording "hdurl if present, else url, else the
    empty string" asks for, presence being that of the key. *)
Definition worded_image_source (r : item) : string :=
  match hdurl r with
  | Some h => h
  | None =>
      match url r with
      | Some u => u
      | None => ""
      end
  end.

(** The records of the examples. *)
Definition record_A : item :=
  mkItem (Some "image") (Some "u1") None None (Some "A") (Some "2020-01-01") None.

Definition record_B : item :=
  mkItem (Some "video") (Some "u2") None (Some "t2") (Some "B") None None.

Definition video_record : item :=
  mkItem (Some "video") (Some "https://embed/x") None None None None None.

Definition hd_record : item :=
  mkItem None (Some "u.jpg") (Some "hd.jpg") None None None None.

Definition empty_hdurl_record : item :=
  mkItem None (Some "u.jpg") (Some "") None None None None.

(** The records of an array without [null] element, [None] when some
    element is [null]. *)
Fixpoint all_records (data : list (option item)) : option (list item) :=
  match data with
  | [] => Some []
  | Some r :: data' => option_map (cons r) (all_records data')
  | None :: _ => None
  end.

(** The error of reading [media_type] on a [null] element. *)
Definition null_record_error : js_error :=
  mkError "TypeError" "Cannot read properties of null (reading 'media_type')".

(** What the gallery shows once a click has settled. *)
Inductive display : Type :=
| ShowTiles (rs : list item)
| ShowNoImages
| ShowError (e : js_error).

(** The display that each outcome of the fetch leads to: a summary of the
    click handler, proved below to be what the handler does. *)
Definition settled (o : fetch_outcome) : display :=
  match o with
  | FetchRejected e => ShowError e
  | FetchResolved r =>
      if ok r then
        match body r with
        | JsonRejected e => ShowError e
        | JsonParsed (PArray (x :: data)) =>
            match all_records (x :: data) with
            | Some rs => ShowTiles rs
            | None => ShowError null_record_error
            end
        | JsonParsed _ => ShowNoImages
        end
      else ShowError (not_ok_error r)
  end.

Definition display_children (d : display) : list gallery_child :=
  match d with
  | ShowTiles rs => map tile_child rs
  | ShowNoImages => [Parsed no_images_markup]
  | ShowError e => [Parsed (error_markup e)]
  end.

Definition display_log (d : display) : list (string * js_error) :=
  match d with
  | ShowError e => [("Failed to load APOD data:", e)]
  | _ => []
  end.

(** The page with the gallery showing [d] and the console extended by the
    log of [d]. *)
Definition show_display (d : display) (g : gallery_el) (st : page) : page :=
  set_console (console st ++ display_log d)
    (set_gallery (Some (mkGallery (g_parent g) (display_children d))) st).

(** The outcome of the fetch of a suspended call; for a call that holds
    its response already, the fetch that resolved with it. *)
Definition outcome_of (c : call) : option fetch_outcome :=
  match c with
  | AwaitingFetch o => Some o
  | AwaitingJson r => Some (FetchResolved r)
  | Returned => None
  end.

(** A call is suspended at line 185 only with a response that is ok. *)
Definition call_ok (c : call) : Prop :=
  match c with
  | AwaitingJson r => ok r = true
  | _ => True
  end.

(** Two clicks, of which the first gets a good response whose body takes
    long to read and the second a fetch that fails: both clicks, the
    response of the first, the failure of the second. *)
Definition network_failure : fetch_outcome :=
  FetchRejected (mkError "TypeError" "Failed to fetch").

Definition slow_body_steps : list step :=
  [Click (array_response 200 [Some record_A]); Click network_failure;
   Settle 0; Settle 1].



(** What the modal controller never touches: the trigger, the gallery, the
    fact regions and the console, and which regions the page has. *)
Definition outside_modal (st : page)
  : bool * option gallery_el * list fact_el * list (string * js_error)
    * (bool * bool * bool * bool * bool * bool * bool) :=
  (getImageBtn st, gallery st, fact_sections st, console st,
   (present (modal st), present (modalImage st), present (modalTitle st),
    present (modalDate st), present (modalExplanation st),
    modalCloseBtn st, modalOverlay st)).

(** The [src] of the image of a tile. *)
Definition tile_image_src (el : node) : option string :=
  match filter (fun k =>
                  match node_tag k with
                  | Some t => t =? "img"
                  | None => false
                  end) (node_kids el) with
  | img :: _ => node_prop "src" img
  | [] => None
  end.

(** The texts of the heading and of the date line of a tile. *)
Definition tile_texts (el : node) : list string :=
  map textContent
    (filter (fun k =>
               match node_tag k with
               | Some t => (t =? "h3") || (t =? "p")
               | None => false
               end) (node_kids el)).

(** Draws of the examples: the binary64 numbers 0.75, 0.7 (the number
    nearest to seven tenths) and the largest number below one. *)
Definition three_quarters : double := mkDouble 3 (-2).

Definition seven_tenths : double := mkDouble 3152519739159347 (-52).

Definition largest_draw : double := mkDouble (2 ^ 53 - 1) (-53).

(** The floor of the exact product of a draw with the length of [facts]. *)
Definition exact_index (facts : list string) (r : double) : Z :=
  (mantissa r * Z.of_nat (length facts) / 2 ^ (- exponent r))%Z.

(** * Properties *)

(** ** Fact picker *)

Section Binary64.

Local Open Scope Z_scope.

Lemma round_half_even_bounds (P k : Z) :
  0 <= P -> 1 <= k ->
  2 ^ k * (P / 2 ^ k) <= 2 ^ k * round_half_even P k /\
  2 * (2 ^ k * round_half_even P k) <= 2 * P + 2 ^ k /\
  2 ^ k * round_half_even P k <= 2 ^ k * (P / 2 ^ k + 1).
Proof.
  intros HP Hk.
  assert (Hpow : 0 < 2 ^ k) by (apply Z.pow_pos_nonneg; lia).
  pose proof (Z.div_mod P (2 ^ k) ltac:(lia)) as Hdm.
  pose proof (Z.mod_pos_bound P (2 ^ k) Hpow) as Hmod.
  unfold round_half_even.
  destruct (Z.ltb_spec (2 * (P mod 2 ^ k)) (2 ^ k)).
  - nia.
  - destruct (Z.ltb_spec (2 ^ k) (2 * (P mod 2 ^ k))).
    + nia.
    + destruct (Z.even (P / 2 ^ k)); nia.
Qed.

Lemma shiftl_nonpos (a e : Z) : e <= 0 -> Z.shiftl a e = a / 2 ^ (- e).
Proof.
  intros He. rewrite <- (Z.opp_involutive e) at 1.
  change (Z.shiftl a (- - e)) with (Z.shiftr a (- e)).
  apply Z.shiftr_div_pow2. lia.
Qed.

Lemma log2_large (P : Z) : 2 ^ 53 <= P -> 53 <= Z.log2 P.
Proof.
  intros H. rewrite <- (Z.log2_pow2 53) by lia. now apply Z.log2_le_mono.
Qed.

Section Product.

Variables m e n : Z.
Hypothesis Hm : 0 <= m < 2 ^ 53.
Hypothesis He : e <= 0.
Hypothesis Hr : m < 2 ^ (- e).
Hypothesis Hn : 0 < n < 2 ^ 53.

Let P := m * n.
Let k := Z.log2 P - 52.

Lemma product_bounds : 0 <= P /\ P < 2 ^ 53 * n /\ P + n <= 2 ^ (- e) * n.
Proof. unfold P. repeat split; nia. Qed.

Lemma shift_bounds :
  2 ^ 53 <= P ->
  1 <= k /\ k <= - e /\ 2 ^ k = 2 * 2 ^ (k - 1) /\ 2 ^ (k - 1) < n /\
  2 ^ (- e) = 2 ^ (- e - k) * 2 ^ k.
Proof.
  intros Hbig.
  destruct product_bounds as [H0 [H1 H2]].
  pose proof (log2_large P Hbig) as Hlog.
  destruct (Z.log2_spec P ltac:(lia)) as [Hlo Hhi].
  assert (Hk : 1 <= k) by (unfold k; lia).
  assert (Elo : 2 ^ Z.log2 P = 2 ^ (k - 1) * 2 ^ 53).
  { rewrite <- Z.pow_add_r by lia. f_equal. unfold k. lia. }
  assert (Hpos : 0 < 2 ^ (k - 1)) by (apply Z.pow_pos_nonneg; lia).
  assert (Hkn : 2 ^ (k - 1) < n) by nia.
  assert (Hks : k <= - e).
  { assert (Hlt : 2 ^ (k + 52) < 2 ^ (- e + 53)).
    { replace (k + 52) with (Z.log2 P) by (unfold k; lia).
      rewrite (Z.pow_add_r 2 (- e) 53) by lia.
      assert (0 < 2 ^ (- e)) by (apply Z.pow_pos_nonneg; lia). nia. }
    apply Z.pow_lt_mono_r_iff in Hlt; lia. }
  repeat split; try assumption.
  - replace k with (1 + (k - 1)) at 1 by lia.
    rewrite Z.pow_add_r by lia. reflexivity.
  - rewrite <- Z.pow_add_r by lia. f_equal. lia.
Qed.

Lemma floor_round_in_range : 0 <= Math_floor (round53 P e) < n.
Proof.
  destruct product_bounds as [H0 [H1 H2]].
  assert (HS : 0 < 2 ^ (- e)) by (apply Z.pow_pos_nonneg; lia).
  unfold round53, Math_floor.
  destruct (Z.ltb_spec P (2 ^ 53)) as [Hsmall | Hbig]; cbn [mantissa exponent].
  - rewrite shiftl_nonpos by exact He. split.
    + apply Z.div_pos; lia.
    + apply Z.div_lt_upper_bound; [exact HS | nia].
  - fold k.
    destruct (shift_bounds Hbig) as [Hk [Hks [E2 [Hkn ES]]]].
    destruct (round_half_even_bounds P k H0 Hk) as [Rlo [Rhi _]].
    assert (HK : 0 < 2 ^ (k - 1)) by (apply Z.pow_pos_nonneg; lia).
    assert (HT : 0 < 2 ^ (- e - k)) by (apply Z.pow_pos_nonneg; lia).
    assert (Hdiv : 0 <= P / 2 ^ k) by (apply Z.div_pos; lia).
    rewrite shiftl_nonpos by lia.
    replace (- (e + k)) with (- e - k) by lia.
    split.
    + apply Z.div_pos; nia.
    + apply Z.div_lt_upper_bound; [exact HT |]. nia.
Qed.

Lemma floor_round_near_exact :
  let exact := P / 2 ^ (- e) in
  let d := round53 P e in
  exact <= Math_floor d <= exact + 1 /\
  (P < 2 ^ 53 -> Math_floor d = exact) /\
  (Math_floor d = exact + 1 ->
   mantissa d * 2 ^ (exponent d - e) = (exact + 1) * 2 ^ (- e)).
Proof.
  intros exact d. subst d.
  destruct product_bounds as [H0 [H1 H2]].
  assert (HS : 0 < 2 ^ (- e)) by (apply Z.pow_pos_nonneg; lia).
  pose proof (Z.div_mod P (2 ^ (- e)) ltac:(lia)) as Hdm.
  pose proof (Z.mod_pos_bound P (2 ^ (- e)) HS) as Hmod.
  fold exact in Hdm.
  unfold round53, Math_floor.
  destruct (Z.ltb_spec P (2 ^ 53)) as [Hsmall | Hbig]; cbn [mantissa exponent].
  - rewrite shiftl_nonpos by exact He. fold exact.
    split; [lia |]. split; [reflexivity | lia].
  - fold k.
    destruct (shift_bounds Hbig) as [Hk [Hks [E2 [Hkn ES]]]].
    destruct (round_half_even_bounds P k H0 Hk) as [Rlo [_ Rhi]].
    assert (HK : 0 < 2 ^ k) by (apply Z.pow_pos_nonneg; lia).
    assert (HT : 0 < 2 ^ (- e - k)) by (apply Z.pow_pos_nonneg; lia).
    pose proof (Z.div_mod P (2 ^ k) ltac:(lia)) as Hdk.
    pose proof (Z.mod_pos_bound P (2 ^ k) HK) as Hmk.
    set (q := round_half_even P k) in *.
    set (T := 2 ^ (- e - k)) in *.
    assert (Hlow : exact * T <= P / 2 ^ k).
    { apply Z.div_le_lower_bound; [exact HK |].
      replace (2 ^ k * (exact * T)) with (2 ^ (- e) * exact)
        by (rewrite ES; ring).
      lia. }
    assert (Hupp : P / 2 ^ k + 1 <= (exact + 1) * T).
    { assert (P / 2 ^ k < (exact + 1) * T); [| lia].
      apply Z.div_lt_upper_bound; [exact HK |].
      replace (2 ^ k * ((exact + 1) * T))
        with (2 ^ (- e) * exact + 2 ^ (- e)) by (rewrite ES; ring).
      lia. }
    assert (Hq : exact * T <= q <= (exact + 1) * T).
    { apply Z.mul_le_mono_pos_l in Rlo; [| exact HK].
      apply Z.mul_le_mono_pos_l in Rhi; [| exact HK]. lia. }
    rewrite shiftl_nonpos by lia.
    replace (- (e + k)) with (- e - k) by lia. fold T.
    assert (Hfl : exact <= q / T <= exact + 1).
    { split.
      - apply Z.div_le_lower_bound; [exact HT |]. rewrite Z.mul_comm. lia.
      - apply Z.div_le_upper_bound; [exact HT |]. rewrite Z.mul_comm. lia. }
    split; [exact Hfl |]. split; [lia |].
    intros Heq.
    pose proof (Z.mul_div_le q T HT) as Hge. rewrite Heq in Hge.
    assert (Eq : q = (exact + 1) * T) by lia.
    replace (e + k - e) with k by lia.
    rewrite Eq, ES. ring.
Qed.

End Product.

End Binary64.

Lemma unit_double_spec (r : double) :
  unit_double r ->
  (0 <= mantissa r < 2 ^ 53 /\ -1074 <= exponent r <= 0 /\
   mantissa r < 2 ^ (- exponent r))%Z.
Proof.
  unfold unit_double, is_unit_double.
  rewrite !andb_true_iff, !Z.leb_le, !Z.ltb_lt. tauto.
Qed.

Lemma length_bounds (facts : list string) :
  facts <> [] -> (Z.of_nat (length facts) < 2 ^ 32)%Z ->
  (0 < Z.of_nat (length facts) < 2 ^ 53)%Z.
Proof.
  intros Hne Hlen. split.
  - destruct facts; [congruence | simpl length; lia].
  - eapply Z.lt_trans; [exact Hlen | reflexivity].
Qed.

Lemma fact_index_range (facts : list string) (r : double) :
  facts <> [] -> (Z.of_nat (length facts) < 2 ^ 32)%Z -> unit_double r ->
  (0 <= fact_index facts r < Z.of_nat (length facts))%Z.
Proof.
  intros Hne Hlen Hr.
  destruct (unit_double_spec r Hr) as [Hm [He Hv]].
  apply floor_round_in_range;
    [exact Hm | lia | exact Hv | now apply length_bounds].
Qed.

Lemma index_in_range (facts : list string) (i : Z) :
  (0 <= i < Z.of_nat (length facts))%Z ->
  exists f, index facts i = Some f /\ In f facts.
Proof.
  intros [Hlo Hhi]. unfold index.
  destruct (Z.ltb_spec i 0) as [Hneg | _]; [lia |].
  destruct (nth_error facts (Z.to_nat i)) as [f |] eqn:E.
  - exists f. split; [reflexivity | eapply nth_error_In; exact E].
  - apply nth_error_None in E. lia.
Qed.

Lemma or_lit_nonempty (s lit : string) :
  s <> "" -> Js.or_lit (Some s) lit = s.
Proof.
  intros H. unfold Js.or_lit.
  destruct (String.eqb_spec s ""); [contradiction | reflexivity].
Qed.

(** Induction on nodes, with the hypothesis for every child. *)
Lemma node_nested_ind (P : node -> Prop) :
  (forall s, P (Text s)) ->
  (forall t ps ks, Forall P ks -> P (Elem t ps ks)) ->
  forall n, P n.
Proof.
  intros HT HE. fix IH 1. intros [s | t ps ks].
  - apply HT.
  - apply HE. induction ks as [| k ks IHks]; constructor.
    + apply IH.
    + exact IHks.
Qed.

Section FirstParagraph.

Variable tag : string.

(** Whether a paragraph is found does not depend on the text written. *)
Lemma set_text_in_none (t1 t2 : string) (n : node) :
  set_text_in tag t1 n = None -> set_text_in tag t2 n = None.
Proof.
  induction n as [s | t ps ks IH] using node_nested_ind; simpl.
  - reflexivity.
  - destruct (t =? tag); [discriminate |].
    intros H.
    assert (Hks : first_map (set_text_in tag t2) ks = None).
    { induction ks as [| k ks IHks]; simpl in *; [reflexivity |].
      inversion IH as [| ? ? Hk Hrest]; subst.
      destruct (set_text_in tag t1 k) eqn:E1; [discriminate |].
      rewrite (Hk eq_refl).
      destruct (first_map (set_text_in tag t1) ks) eqn:E2; [discriminate |].
      rewrite IHks; [reflexivity | exact Hrest | reflexivity]. }
    rewrite Hks. reflexivity.
Qed.

Lemma first_map_none (t1 t2 : string) (ks : list node) :
  first_map (set_text_in tag t1) ks = None ->
  first_map (set_text_in tag t2) ks = None.
Proof.
  induction ks as [| k ks IH]; simpl; [reflexivity |].
  destruct (set_text_in tag t1 k) eqn:E1; [discriminate |].
  rewrite (set_text_in_none t1 t2 k E1).
  destruct (first_map (set_text_in tag t1) ks); [discriminate |].
  intros _. rewrite IH; reflexivity.
Qed.

(** Writing a second text lands on the paragraph the first text went to. *)
Lemma set_text_in_again (t1 t2 : string) (n n1 : node) :
  set_text_in tag t1 n = Some n1 ->
  set_text_in tag t2 n1 = set_text_in tag t2 n.
Proof.
  revert n1.
  induction n as [s | t ps ks IH] using node_nested_ind; simpl; intros n1.
  - discriminate.
  - destruct (t =? tag) eqn:Et.
    + intros H. inversion H; subst. simpl. rewrite Et. reflexivity.
    + destruct (first_map (set_text_in tag t1) ks) as [ks1 |] eqn:E;
        [| discriminate].
      intros H. inversion H; subst. simpl. rewrite Et. f_equal.
      clear H. revert ks1 E.
      induction ks as [| k ks IHks]; simpl; intros ks1 E; [discriminate |].
      inversion IH as [| ? ? Hk Hrest]; subst.
      destruct (set_text_in tag t1 k) as [k1 |] eqn:E1.
      * inversion E; subst. simpl. rewrite (Hk k1 eq_refl).
        destruct (set_text_in tag t2 k) eqn:E2; [reflexivity |].
        rewrite (set_text_in_none t2 t1 k E2) in E1. discriminate.
      * destruct (first_map (set_text_in tag t1) ks) as [l1 |] eqn:E3;
          [| discriminate].
        inversion E; subst. simpl.
        rewrite (set_text_in_none t1 t2 k E1).
        rewrite (IHks Hrest l1 eq_refl). reflexivity.
Qed.

Lemma first_map_again (t1 t2 : string) (ks ks1 : list node) :
  first_map (set_text_in tag t1) ks = Some ks1 ->
  first_map (set_text_in tag t2) ks1 = first_map (set_text_in tag t2) ks.
Proof.
  revert ks1. induction ks as [| k ks IH]; simpl; intros ks1 E;
    [discriminate |].
  destruct (set_text_in tag t1 k) as [k1 |] eqn:E1.
  - inversion E; subst. simpl. rewrite (set_text_in_again t1 t2 k k1 E1).
    destruct (set_text_in tag t2 k) eqn:E2; [reflexivity |].
    rewrite (set_text_in_none t2 t1 k E2) in E1. discriminate.
  - destruct (first_map (set_text_in tag t1) ks) as [l1 |] eqn:E3;
      [| discriminate].
    inversion E; subst. simpl.
    rewrite (set_text_in_none t1 t2 k E1), (IH l1 eq_refl). reflexivity.
Qed.

(** [querySelector] finds a paragraph exactly when one can be written. *)
Lemma find_in_none (txt : string) (n : node) :
  find_in tag n = None <-> set_text_in tag txt n = None.
Proof.
  induction n as [s | t ps ks IH] using node_nested_ind; simpl.
  - tauto.
  - destruct (t =? tag); [split; discriminate |].
    assert (Hks : first_some (find_in tag) ks = None <->
                  first_map (set_text_in tag txt) ks = None).
    { induction ks as [| k ks IHks]; simpl; [tauto |].
      inversion IH as [| ? ? Hk Hrest]; subst.
      specialize (IHks Hrest).
      destruct (find_in tag k) eqn:E1, (set_text_in tag txt k) eqn:E2.
      - split; discriminate.
      - destruct Hk as [_ Hk]. specialize (Hk eq_refl). discriminate.
      - destruct Hk as [Hk _]. specialize (Hk eq_refl). discriminate.
      - destruct (first_map (set_text_in tag txt) ks); simpl.
        + split; [intros H; apply IHks in H; discriminate | discriminate].
        + split; [reflexivity | intros _; apply IHks; reflexivity]. }
    destruct (first_map (set_text_in tag txt) ks); simpl.
    + split; [intros H; apply Hks in H; discriminate | discriminate].
    + split; [reflexivity | intros _; apply Hks; reflexivity].
Qed.

Lemma first_some_none (txt : string) (ks : list node) :
  first_some (find_in tag) ks = None <->
  first_map (set_text_in tag txt) ks = None.
Proof.
  induction ks as [| k ks IH]; simpl; [tauto |].
  pose proof (find_in_none txt k) as Hk.
  destruct (find_in tag k) eqn:E1, (set_text_in tag txt k) eqn:E2.
  - split; discriminate.
  - destruct Hk as [_ Hk]. specialize (Hk eq_refl). discriminate.
  - destruct Hk as [Hk _]. specialize (Hk eq_refl). discriminate.
  - destruct (first_map (set_text_in tag txt) ks); simpl.
    + split; [intros H; apply IH in H; discriminate | discriminate].
    + split; [reflexivity | intros _; apply IH; reflexivity].
Qed.

End FirstParagraph.

Lemma append_empty (s : string) : (s ++ "")%string = s.
Proof. induction s as [| c s IH]; simpl; [reflexivity | now rewrite IH]. Qed.

Lemma textContent_text_kids (t : string) (ps : list (string * string))
    (txt : string) :
  textContent (Elem t ps (text_kids txt)) = txt.
Proof.
  unfold text_kids. destruct (String.eqb_spec txt "") as [-> | _]; simpl.
  - reflexivity.
  - apply append_empty.
Qed.

Lemma set_text_in_elem (tag txt : string) (n n' : node) :
  set_text_in tag txt n = Some n' ->
  exists t ps ks, n' = Elem t ps ks.
Proof.
  destruct n as [s | t ps ks]; simpl; [discriminate |].
  destruct (t =? tag).
  - intros H. inversion H. eauto.
  - destruct (first_map (set_text_in tag txt) ks); simpl; [| discriminate].
    intros H. inversion H. eauto.
Qed.

Section WrittenParagraph.

Variables tag txt : string.

(** After the write, [querySelector] finds a paragraph holding the text. *)
Lemma set_text_in_found (n n' : node) :
  set_text_in tag txt n = Some n' ->
  exists p, find_in tag n' = Some p /\ textContent p = txt.
Proof.
  revert n'.
  induction n as [s | t ps ks IH] using node_nested_ind; simpl; intros n'.
  - discriminate.
  - destruct (t =? tag) eqn:Et.
    + intros H. inversion H; subst. simpl. rewrite Et.
      eexists. split; [reflexivity | apply textContent_text_kids].
    + destruct (first_map (set_text_in tag txt) ks) as [ks1 |] eqn:E;
        [| discriminate].
      intros H. inversion H; subst. simpl. rewrite Et. clear H.
      revert ks1 E.
      induction ks as [| k ks IHks]; simpl; intros ks1 E; [discriminate |].
      inversion IH as [| ? ? Hk Hrest]; subst.
      destruct (set_text_in tag txt k) as [k1 |] eqn:E1.
      * inversion E; subst. simpl.
        destruct (Hk k1 eq_refl) as [p [Hp Ht]]. rewrite Hp. eauto.
      * destruct (first_map (set_text_in tag txt) ks) as [l1 |] eqn:E3;
          [| discriminate].
        inversion E; subst. simpl.
        rewrite (proj2 (find_in_none tag txt k) E1).
        apply (IHks Hrest l1 eq_refl).
Qed.

Lemma first_map_found (ks ks1 : list node) :
  first_map (set_text_in tag txt) ks = Some ks1 ->
  exists p, first_some (find_in tag) ks1 = Some p /\ textContent p = txt.
Proof.
  revert ks1. induction ks as [| k ks IH]; simpl; intros ks1 E;
    [discriminate |].
  destruct (set_text_in tag txt k) as [k1 |] eqn:E1.
  - inversion E; subst. simpl.
    destruct (set_text_in_found k k1 E1) as [p [Hp Ht]]. rewrite Hp. eauto.
  - destruct (first_map (set_text_in tag txt) ks) as [l1 |] eqn:E3;
      [| discriminate].
    inversion E; subst. simpl.
    rewrite (proj2 (find_in_none tag txt k) E1).
    apply (IH l1 eq_refl).
Qed.

Lemma first_map_append (ks : list node) (x x' : node) :
  first_map (set_text_in tag txt) ks = None ->
  set_text_in tag txt x = Some x' ->
  first_map (set_text_in tag txt) (ks ++ [x]) = Some (ks ++ [x']).
Proof.
  intros Hks Hx. induction ks as [| k ks IH]; simpl in *.
  - rewrite Hx. reflexivity.
  - destruct (set_text_in tag txt k); [discriminate |].
    destruct (first_map (set_text_in tag txt) ks); [discriminate |].
    rewrite (IH eq_refl). reflexivity.
Qed.

End WrittenParagraph.

Lemma element_kids_text_kids (txt : string) : element_kids (text_kids txt) = [].
Proof. unfold text_kids. destruct (txt =? ""); reflexivity. Qed.

Lemma element_kids_cons (k : node) (l : list node) :
  element_kids (k :: l) = element_kids [k] ++ element_kids l.
Proof. unfold element_kids. simpl. now rewrite app_nil_r. Qed.

(** The structure left by a write does not depend on the text written. *)
Lemma set_text_in_structure (tag t1 t2 : string) (n n1 n2 : node) :
  set_text_in tag t1 n = Some n1 ->
  set_text_in tag t2 n = Some n2 ->
  elements_only n1 = elements_only n2.
Proof.
  revert n1 n2.
  induction n as [s | t ps ks IH] using node_nested_ind; simpl; intros n1 n2.
  - discriminate.
  - destruct (t =? tag) eqn:Et.
    + intros H1 H2. inversion H1; inversion H2; subst.
      change (Elem t ps (element_kids (text_kids t1))
              = Elem t ps (element_kids (text_kids t2))).
      now rewrite !element_kids_text_kids.
    + destruct (first_map (set_text_in tag t1) ks) as [ks1 |] eqn:E1;
        [| discriminate].
      destruct (first_map (set_text_in tag t2) ks) as [ks2 |] eqn:E2;
        [| discriminate].
      intros H1 H2. inversion H1; inversion H2; subst. clear H1 H2.
      change (Elem t ps (element_kids ks1) = Elem t ps (element_kids ks2)).
      f_equal. revert ks1 ks2 E1 E2.
      induction ks as [| k ks IHks]; simpl; intros ks1 ks2 E1 E2;
        [discriminate |].
      inversion IH as [| ? ? Hk Hrest]; subst.
      destruct (set_text_in tag t1 k) as [k1 |] eqn:F1.
      * destruct (set_text_in tag t2 k) as [k2 |] eqn:F2.
        -- inversion E1; inversion E2; subst.
           destruct (set_text_in_elem _ _ _ _ F1) as [a1 [b1 [c1 ->]]].
           destruct (set_text_in_elem _ _ _ _ F2) as [a2 [b2 [c2 ->]]].
           change (elements_only (Elem a1 b1 c1) :: element_kids ks
                   = elements_only (Elem a2 b2 c2) :: element_kids ks).
           rewrite (Hk _ _ eq_refl eq_refl). reflexivity.
        -- rewrite (set_text_in_none tag t2 t1 k F2) in F1. discriminate.
      * rewrite (set_text_in_none tag t1 t2 k F1) in E2.
        destruct (first_map (set_text_in tag t1) ks) as [l1 |]; [| discriminate].
        destruct (first_map (set_text_in tag t2) ks) as [l2 |]; [| discriminate].
        inversion E1; inversion E2; subst.
        rewrite (element_kids_cons k l1), (element_kids_cons k l2).
        f_equal. apply (IHks Hrest); reflexivity.
Qed.

Lemma first_map_structure (tag t1 t2 : string) (ks ks1 ks2 : list node) :
  first_map (set_text_in tag t1) ks = Some ks1 ->
  first_map (set_text_in tag t2) ks = Some ks2 ->
  element_kids ks1 = element_kids ks2.
Proof.
  revert ks1 ks2. induction ks as [| k ks IH]; simpl; intros ks1 ks2 E1 E2;
    [discriminate |].
  destruct (set_text_in tag t1 k) as [k1 |] eqn:F1.
  - destruct (set_text_in tag t2 k) as [k2 |] eqn:F2.
    + inversion E1; inversion E2; subst.
      destruct (set_text_in_elem _ _ _ _ F1) as [a1 [b1 [c1 ->]]].
      destruct (set_text_in_elem _ _ _ _ F2) as [a2 [b2 [c2 ->]]].
      change (elements_only (Elem a1 b1 c1) :: element_kids ks
              = elements_only (Elem a2 b2 c2) :: element_kids ks).
      rewrite (set_text_in_structure _ _ _ _ _ _ F1 F2). reflexivity.
    + rewrite (set_text_in_none tag t2 t1 k F2) in F1. discriminate.
  - rewrite (set_text_in_none tag t1 t2 k F1) in E2.
    destruct (first_map (set_text_in tag t1) ks) as [l1 |]; [| discriminate].
    destruct (first_map (set_text_in tag t2) ks) as [l2 |]; [| discriminate].
    inversion E1; inversion E2; subst.
    rewrite (element_kids_cons k l1), (element_kids_cons k l2).
    f_equal. apply IH; reflexivity.
Qed.


Lemma ensure_p_writable (txt : string) (sec : fact_el) :
  exists ks,
    first_map (set_text_in "p" txt) (f_kids (ensure_p sec)) = Some ks.
Proof.
  unfold ensure_p, querySelector.
  destruct (first_some (find_in "p") (f_kids sec)) eqn:E.
  - destruct (first_map (set_text_in "p" txt) (f_kids sec)) eqn:F; eauto.
    apply (first_some_none "p" txt) in F. congruence.
  - simpl. eexists. apply first_map_append.
    + apply first_some_none. exact E.
    + reflexivity.
Qed.

Lemma ensure_p_fixed (txt : string) (sec : fact_el) :
  ensure_p (set_p_text txt (ensure_p sec)) = set_p_text txt (ensure_p sec).
Proof.
  destruct (ensure_p_writable txt sec) as [ks Hks].
  unfold set_p_text at 1 2. rewrite Hks.
  unfold ensure_p at 1, querySelector. simpl f_kids.
  destruct (first_some (find_in "p") ks) eqn:E; [reflexivity |].
  apply (first_some_none "p" txt) in E.
  rewrite (first_map_again "p" txt txt _ _ Hks) in E. congruence.
Qed.

Lemma set_p_text_again (t1 t2 : string) (sec : fact_el) :
  set_p_text t2 (ensure_p (set_p_text t1 (ensure_p sec)))
  = set_p_text t2 (ensure_p sec).
Proof.
  rewrite ensure_p_fixed.
  destruct (ensure_p_writable t1 sec) as [ks Hks].
  destruct (ensure_p_writable t2 sec) as [ks2 Hks2].
  unfold set_p_text at 2. rewrite Hks.
  unfold set_p_text. simpl.
  rewrite (first_map_again "p" t1 t2 _ _ Hks), Hks2. reflexivity.
Qed.

Lemma showRandomFact_with_exec (facts : list string) (r : double) (st : page) :
  exec (showRandomFact_with facts r) st
  = set_fact_sections
      (match fact_sections st with
       | found :: others =>
           set_p_text (pick_fact facts r) (ensure_p found) :: others
       | [] =>
           [set_p_text (pick_fact facts r)
              (ensure_p (new_fact_section (insertion_place st)))]
       end) st.
Proof.
  unfold showRandomFact_with, exec, bind, get, modify. simpl.
  destruct (fact_sections st); reflexivity.
Qed.

(** A later run overwrites the text of an earlier one and nothing else. *)
Lemma showRandomFact_absorbs (facts : list string) (r1 r2 : double) (st : page) :
  exec (showRandomFact_with facts r2) (exec (showRandomFact_with facts r1) st)
  = exec (showRandomFact_with facts r2) st.
Proof.
  rewrite !showRandomFact_with_exec.
  destruct (fact_sections st) as [| found others] eqn:E; simpl;
    rewrite set_p_text_again; destruct st; simpl in *; reflexivity.
Qed.

Lemma last_cons_default {A} (l : list A) (a d d' : A) :
  last (a :: l) d = last (a :: l) d'.
Proof.
  revert a. induction l as [| b l IH]; intros a; [reflexivity |].
  change (last (b :: l) d = last (b :: l) d'). apply IH.
Qed.

Lemma run_facts_last (rs : list double) (r : double) (st : page) :
  run_facts rs (exec (showRandomFact r) st)
  = exec (showRandomFact (last rs r)) st.
Proof.
  revert r. induction rs as [| r' rs IH]; intros r; [reflexivity |].
  change (run_facts (r' :: rs) (exec (showRandomFact r) st))
    with (run_facts rs (exec (showRandomFact r') (exec (showRandomFact r) st))).
  unfold showRandomFact at 1 2. rewrite showRandomFact_absorbs.
  fold (showRandomFact r'). rewrite IH.
  destruct rs as [| q rs]; [reflexivity |].
  change (last (r' :: q :: rs) r) with (last (q :: rs) r).
  now rewrite (last_cons_default rs q r r').
Qed.

Lemma set_p_text_structure (t1 t2 : string) (sec : fact_el) :
  element_kids (f_kids (set_p_text t1 (ensure_p sec)))
  = element_kids (f_kids (set_p_text t2 (ensure_p sec))).
Proof.
  destruct (ensure_p_writable t1 sec) as [k1 H1].
  destruct (ensure_p_writable t2 sec) as [k2 H2].
  unfold set_p_text. rewrite H1, H2. simpl.
  exact (first_map_structure _ _ _ _ _ _ H1 H2).
Qed.

Lemma set_p_text_frame (txt : string) (sec : fact_el) :
  f_place (set_p_text txt sec) = f_place sec /\
  f_tag (set_p_text txt sec) = f_tag sec /\
  f_props (set_p_text txt sec) = f_props sec.
Proof. unfold set_p_text. destruct (first_map _ _); simpl; auto. Qed.

Lemma set_p_text_entry (t1 t2 : string) (sec : fact_el) :
  let s1 := set_p_text t1 (ensure_p sec) in
  let s2 := set_p_text t2 (ensure_p sec) in
  mkFact (f_place s1) (f_tag s1) (f_props s1) (element_kids (f_kids s1))
  = mkFact (f_place s2) (f_tag s2) (f_props s2) (element_kids (f_kids s2)).
Proof.
  intros s1 s2. subst s1 s2.
  destruct (set_p_text_frame t1 (ensure_p sec)) as [-> [-> ->]].
  destruct (set_p_text_frame t2 (ensure_p sec)) as [-> [-> ->]].
  now rewrite (set_p_text_structure t1 t2).
Qed.

Lemma showRandomFact_structure (r1 r2 : double) (st : page) :
  fact_structure (exec (showRandomFact r1) st)
  = fact_structure (exec (showRandomFact r2) st).
Proof.
  unfold showRandomFact. rewrite !showRandomFact_with_exec.
  unfold fact_structure.
  cbn [fact_sections set_fact_sections].
  destruct (fact_sections st) as [| found others]; cbn [map]; f_equal;
    apply set_p_text_entry.
Qed.

Lemma showRandomFact_text (facts : list string) (r : double) (st : page) :
  fact_text (exec (showRandomFact_with facts r) st) = Some (pick_fact facts r).
Proof.
  rewrite showRandomFact_with_exec. unfold fact_text. simpl.
  assert (H : forall sec,
             option_map textContent
               (querySelector "p" (set_p_text (pick_fact facts r) (ensure_p sec)))
             = Some (pick_fact facts r)).
  { intros sec. destruct (ensure_p_writable (pick_fact facts r) sec) as [ks Hks].
    unfold set_p_text. rewrite Hks. unfold querySelector. simpl.
    destruct (first_map_found _ _ _ _ Hks) as [p [Hp Ht]].
    rewrite Hp. simpl. now rewrite Ht. }
  destruct (fact_sections st); apply H.
Qed.

Lemma showRandomFact_count (r : double) (st : page) :
  length (fact_sections (exec (showRandomFact r) st))
  = Nat.max 1 (length (fact_sections st)).
Proof.
  unfold showRandomFact. rewrite showRandomFact_with_exec. simpl.
  destruct (fact_sections st); simpl; lia.
Qed.

Lemma spaceFacts_not_empty : Forall (fun f => f <> "") spaceFacts.
Proof. repeat constructor; discriminate. Qed.

(** For the list of the script, whatever the draw. *)
Lemma showRandomFact_displays_listed_fact (r : double) :
  unit_double r -> displays_listed_fact spaceFacts r.
Proof.
  intros Hr.
  assert (Hidx : (0 <= fact_index spaceFacts r
                  < Z.of_nat (length spaceFacts))%Z).
  { apply fact_index_range; [discriminate | reflexivity | exact Hr]. }
  destruct (index_in_range spaceFacts _ Hidx) as [f [Hf Hin]].
  split; [exact Hidx |].
  unfold pick_fact. rewrite Hf, or_lit_nonempty; [exact Hin |].
  pose proof spaceFacts_not_empty as Hall.
  rewrite Forall_forall in Hall. now apply Hall.
Qed.

(** C8.  For a non-empty list of facts (of fewer than [2 ^ 32] entries,
    as every array) and a draw [r] of [Math.random()], a binary64 number
    of [0, 1), the index [Math.floor(r * length)], with the product
    rounded as binary64 arithmetic rounds it, is in range, and the entry
    read there is a fact of the list, never [undefined].  The text put on
    display is that entry (the default text stands in only for an entry
    that is the empty string), so that it is a fact of the list whenever
    the list holds no empty string; and the list of the script, the only
    one the fact picker is run with, is such a list: for every draw the
    script displays one of its ten facts. *)
Theorem fact_picker_selects_listed_fact (facts : list string) (r : double) :
  facts <> [] -> (Z.of_nat (length facts) < 2 ^ 32)%Z -> unit_double r ->
  (0 <= fact_index facts r < Z.of_nat (length facts))%Z /\
  (exists f,
      index facts (fact_index facts r) = Some f /\ In f facts /\
      (f <> "" -> pick_fact facts r = f) /\
      (f = "" -> pick_fact facts r = "Space is full of surprises!")) /\
  (Forall (fun f => f <> "") facts -> displays_listed_fact facts r) /\
  displays_listed_fact spaceFacts r.
Proof.
  intros Hne Hlen Hr.
  pose proof (fact_index_range facts r Hne Hlen Hr) as Hidx.
  destruct (index_in_range facts _ Hidx) as [f [Hf Hin]].
  assert (Hshown : f <> "" -> pick_fact facts r = f).
  { intros Hf'. unfold pick_fact. rewrite Hf. now apply or_lit_nonempty. }
  split; [exact Hidx | split; [| split]].
  - exists f. repeat split; try assumption.
    intros ->. unfold pick_fact. rewrite Hf. reflexivity.
  - intros Hall. split; [exact Hidx |].
    rewrite Hshown; [exact Hin |].
    rewrite Forall_forall in Hall. now apply Hall.
  - now apply showRandomFact_displays_listed_fact.
Qed.

Lemma fact_picker_selects_listed_fact_witness :
  displays_listed_fact spaceFacts seven_tenths /\
  displays_listed_fact spaceFacts largest_draw.
Proof.
  split.
  - apply (fact_picker_selects_listed_fact spaceFacts seven_tenths).
    + discriminate.
    + reflexivity.
    + reflexivity.
  - apply (fact_picker_selects_listed_fact spaceFacts largest_draw).
    + discriminate.
    + reflexivity.
    + reflexivity.
Defined.

(** C9.  The fact region is created at most once: the first run of the
    fact picker leaves one "did-you-know" region where there was none (and
    none more where there was one), every later run finds that region again,
    so the number of regions and the structure of the page stay as the
    first run left them, while the text on display is the fact of the
    latest run. *)
Theorem fact_region_created_once (st : page) (r : double) (rs : list double) :
  let st1 := exec (showRandomFact r) st in
  let stn := run_facts rs st1 in
  length (fact_sections st1) = Nat.max 1 (length (fact_sections st)) /\
  length (fact_sections stn) = length (fact_sections st1) /\
  fact_structure stn = fact_structure st1 /\
  fact_text st1 = Some (pick_fact spaceFacts r) /\
  fact_text stn = Some (pick_fact spaceFacts (last rs r)).
Proof.
  intros st1 stn. subst st1 stn. rewrite run_facts_last.
  split; [apply showRandomFact_count |].
  split; [now rewrite !showRandomFact_count |].
  split; [apply showRandomFact_structure |].
  split; apply showRandomFact_text.
Qed.

(** ** Modal controller *)

Ltac destruct_page st :=
  destruct st as [btn gal facts mdl img ttl dat expl cbtn ovl vb va ovf act con].

Ltac run_js :=
  unfold exec, result, openModal, closeModal, keydown, overlay_click,
    update_image, set_title_text, set_date_text, set_explanation_text,
    focus_close_button, modal_set_aria_hidden, prop, bind, ret, get, modify,
    throw in *;
  simpl in *.

Lemma seq_true (v : Js.value) (lit : string) :
  Js.seq v lit = true <-> v = Some lit.
Proof.
  destruct v as [s |]; simpl.
  - rewrite String.eqb_eq. split; [now intros -> | now intros [=]].
  - split; discriminate.
Qed.

Lemma or_lit_or_first (a b : Js.value) (s : string) :
  a = Some s -> s <> "" -> Js.or_lit (Js.or a b) "" = s.
Proof.
  intros -> Hs. unfold Js.or, Js.truthy.
  destruct (String.eqb_spec s ""); [contradiction |]. simpl.
  now apply or_lit_nonempty.
Qed.

Lemma or_lit_or_second (a b : Js.value) (s : string) :
  missing a -> b = Some s -> s <> "" -> Js.or_lit (Js.or a b) "" = s.
Proof.
  intros [-> | ->] -> Hs; simpl; now apply or_lit_nonempty.
Qed.

Lemma or_lit_or_none (a b : Js.value) :
  missing a -> missing b -> Js.or_lit (Js.or a b) "" = "".
Proof. intros [-> | ->] [-> | ->]; reflexivity. Qed.

Lemma or_lit_missing (a : Js.value) (lit : string) :
  missing a -> Js.or_lit a lit = lit.
Proof. intros [-> | ->]; reflexivity. Qed.

Lemma videos_remove (st : page) :
  videos (remove_modal_video st) = tl (videos st).
Proof.
  unfold videos, remove_modal_video. simpl.
  destruct (videos_before st); reflexivity.
Qed.


Lemma remove_modal_video_unique (st : page) :
  (length (videos st) <= 1)%nat ->
  videos_before (remove_modal_video st) = [] /\
  videos_after (remove_modal_video st) = [].
Proof.
  unfold videos, remove_modal_video. simpl.
  destruct (videos_before st) as [| ? [| ? ?]],
           (videos_after st) as [| ? [| ? ?]]; simpl; intros H;
    try lia; auto.
Qed.

Section OpenEffects.

Variables (st : page) (r : item) (m : modal_el).
Hypothesis Hm : modal st = Some m.

Let st1 := exec (openModal (Some r)) st.

Lemma openModal_modal : modal st1 = Some (mkModal (Some "false")).
Proof.
  subst st1. destruct_page st. simpl in Hm. subst. run_js.
  destruct (Js.seq (media_type r) "video"); reflexivity.
Qed.

Lemma openModal_videos_before :
  videos_before st1
  = (videos_before (remove_modal_video st)
     ++ (if Js.seq (media_type r) "video" && negb (image_has_parent st)
         then [new_iframe (Js.or_lit (Js.or (url r) (thumbnail_url r)) "")]
         else []))%list.
Proof.
  subst st1. destruct_page st. simpl in Hm. subst. run_js.
  unfold insert_iframe, image_has_parent.
  destruct (Js.seq (media_type r) "video"); simpl;
    [| now rewrite app_nil_r].
  destruct img as [[[] ? ? ?] |]; simpl; now rewrite ?app_nil_r.
Qed.

Lemma openModal_videos_after :
  videos_after st1
  = ((if Js.seq (media_type r) "video" && image_has_parent st
      then [new_iframe (Js.or_lit (Js.or (url r) (thumbnail_url r)) "")]
      else []) ++ videos_after (remove_modal_video st))%list.
Proof.
  subst st1. destruct_page st. simpl in Hm. subst. run_js.
  unfold insert_iframe, image_has_parent.
  destruct (Js.seq (media_type r) "video"); simpl; [| reflexivity].
  destruct img as [[[] ? ? ?] |]; reflexivity.
Qed.

(** Wherever the iframe is put, it follows what was before the insertion
    point and precedes what was after it. *)
Lemma openModal_videos_all :
  videos st1
  = (videos_before (remove_modal_video st)
     ++ (if Js.seq (media_type r) "video"
         then [new_iframe (Js.or_lit (Js.or (url r) (thumbnail_url r)) "")]
         else [])
     ++ videos_after (remove_modal_video st))%list.
Proof.
  unfold videos. rewrite openModal_videos_before, openModal_videos_after.
  destruct (Js.seq (media_type r) "video"), (image_has_parent st); simpl;
    rewrite <- ?app_assoc; reflexivity.
Qed.

Lemma openModal_image :
  modalImage st1
  = option_map (fun i =>
      if Js.seq (media_type r) "video"
      then mkImage (img_parent i) "none" (img_src i) (img_alt i)
      else mkImage (img_parent i) "" (Js.or_lit (Js.or (hdurl r) (url r)) "")
             (Js.or_lit (title r) "Space image"))
      (modalImage st).
Proof.
  subst st1. destruct_page st. simpl in Hm. subst. run_js.
  destruct (Js.seq (media_type r) "video"); destruct img; reflexivity.
Qed.

Lemma openModal_texts :
  modalTitle st1
    = option_map (fun _ => Js.or_lit (title r) "Untitled") (modalTitle st) /\
  modalDate st1 = option_map (fun _ => Js.or_lit (date r) "") (modalDate st) /\
  modalExplanation st1
    = option_map (fun _ => Js.or_lit (explanation r) "") (modalExplanation st).
Proof.
  subst st1. destruct_page st. simpl in Hm. subst. run_js.
  destruct (Js.seq (media_type r) "video"); repeat split.
Qed.

Lemma openModal_scroll_focus :
  body_overflow st1 = "hidden" /\
  active st1 = (if modalCloseBtn st then FocusCloseBtn else active st).
Proof.
  subst st1. destruct_page st. simpl in Hm. subst. run_js.
  destruct (Js.seq (media_type r) "video"); split; reflexivity.
Qed.

End OpenEffects.

Section CloseEffects.

Variables (st : page) (m : modal_el).
Hypothesis Hm : modal st = Some m.

Let st1 := exec closeModal st.

Lemma closeModal_modal : modal st1 = Some (mkModal (Some "true")).
Proof. subst st1. destruct_page st. simpl in Hm. subst. reflexivity. Qed.

Lemma closeModal_videos_removed : videos st1 = tl (videos st).
Proof.
  subst st1. destruct_page st. simpl in Hm. subst. run_js.
  unfold videos, remove_modal_video. simpl. destruct vb; reflexivity.
Qed.

Lemma closeModal_image :
  modalImage st1
  = option_map (fun i => mkImage (img_parent i) "" "" (img_alt i))
      (modalImage st).
Proof. subst st1. destruct_page st. simpl in Hm. subst. reflexivity. Qed.

Lemma closeModal_scroll : body_overflow st1 = "".
Proof. subst st1. destruct_page st. simpl in Hm. subst. reflexivity. Qed.

End CloseEffects.

(** C3.  On a page with the modal, where ids are unique (at most one
    element has the id "modal-video"), opening a record whose media type is
    "video" hides the modal image and leaves exactly one embed in the
    document, the new iframe, whose source is the url of the record, or its
    thumbnail url when the url is missing or empty, or the empty string;
    closing afterwards removes the embed, shows the image again and clears
    its source. *)
Theorem openModal_video_then_close (st : page) (r : item) (m : modal_el) :
  modal st = Some m ->
  (length (videos st) <= 1)%nat ->
  media_type r = Some "video" ->
  let st1 := exec (openModal (Some r)) st in
  let st2 := exec closeModal st1 in
  option_map img_display (modalImage st1)
    = option_map (fun _ => "none") (modalImage st) /\
  (exists src,
      videos st1 = [new_iframe src] /\
      node_prop "id" (new_iframe src) = Some "modal-video" /\
      node_prop "src" (new_iframe src) = Some src /\
      (forall u, url r = Some u -> u <> "" -> src = u) /\
      (missing (url r) ->
       forall t, thumbnail_url r = Some t -> t <> "" -> src = t) /\
      (missing (url r) -> missing (thumbnail_url r) -> src = "")) /\
  option_map aria_hidden (modal st1) = Some (Some "false") /\
  videos st2 = [] /\
  option_map img_display (modalImage st2)
    = option_map (fun _ => "") (modalImage st) /\
  option_map img_src (modalImage st2)
    = option_map (fun _ => "") (modalImage st) /\
  option_map aria_hidden (modal st2) = Some (Some "true").
Proof.
  intros Hm Hlen Hv st1 st2.
  assert (Hseq : Js.seq (media_type r) "video" = true) by now apply seq_true.
  destruct (remove_modal_video_unique st Hlen) as [Hb Ha].
  assert (Hvid : videos st1
                 = [new_iframe (Js.or_lit (Js.or (url r) (thumbnail_url r)) "")]).
  { subst st1.
    rewrite (openModal_videos_all st r m Hm), Hseq, Hb, Ha. reflexivity. }
  assert (Hm1 : modal st1 = Some (mkModal (Some "false")))
    by apply (openModal_modal st r m Hm).
  assert (Hi1 : modalImage st1
                = option_map (fun i =>
                    mkImage (img_parent i) "none" (img_src i) (img_alt i))
                    (modalImage st)).
  { subst st1. rewrite (openModal_image st r m Hm), Hseq. reflexivity. }
  split; [rewrite Hi1; destruct (modalImage st); reflexivity |].
  split.
  { eexists. split; [exact Hvid |]. split; [reflexivity |].
    split; [reflexivity |]. split; [| split].
    - intros u Hu Hne. now apply or_lit_or_first.
    - intros Hu t Ht Hne. now apply or_lit_or_second.
    - intros Hu Ht. now apply or_lit_or_none. }
  split; [now rewrite Hm1 |].
  subst st2.
  split; [rewrite (closeModal_videos_removed st1 _ Hm1), Hvid; reflexivity |].
  rewrite (closeModal_image st1 _ Hm1), (closeModal_modal st1 _ Hm1), Hi1.
  split; [destruct (modalImage st); reflexivity |].
  split; [destruct (modalImage st); reflexivity | reflexivity].
Qed.

Lemma openModal_video_then_close_witness :
  videos (exec (openModal (Some video_record)) full_page)
    = [new_iframe "https://embed/x"] /\
  videos (exec closeModal (exec (openModal (Some video_record)) full_page))
    = [].
Proof.
  destruct (openModal_video_then_close full_page video_record
              (mkModal (Some "true")) eq_refl (le_S _ _ (le_n 0)) eq_refl)
    as [_ [_ [_ [H _]]]].
  split; [reflexivity | exact H].
Defined.

(** C4 (as amended).  On a page with the modal and its image, opening a
    record whose media type is not "video" (or is absent) shows the image
    and sets its source to the hdurl when that is present and not empty,
    else to the url when that is present and not empty, else to the empty
    string; the alt text is the title when present and not empty, else
    "Space image".  No embed is inserted. *)
Theorem openModal_image_source (st : page) (r : item) (m : modal_el)
    (img : image_el) :
  modal st = Some m ->
  modalImage st = Some img ->
  media_type r <> Some "video" ->
  let st1 := exec (openModal (Some r)) st in
  exists img1,
    modalImage st1 = Some img1 /\
    img_display img1 = "" /\
    (forall h, hdurl r = Some h -> h <> "" -> img_src img1 = h) /\
    (missing (hdurl r) ->
     forall u, url r = Some u -> u <> "" -> img_src img1 = u) /\
    (missing (hdurl r) -> missing (url r) -> img_src img1 = "") /\
    (forall t, title r = Some t -> t <> "" -> img_alt img1 = t) /\
    (missing (title r) -> img_alt img1 = "Space image") /\
    videos st1 = tl (videos st).
Proof.
  intros Hm Hi Hv st1.
  assert (Hseq : Js.seq (media_type r) "video" = false).
  { destruct (Js.seq (media_type r) "video") eqn:E; [| reflexivity].
    apply seq_true in E. contradiction. }
  subst st1. rewrite (openModal_image st r m Hm), Hseq, Hi.
  eexists. split; [reflexivity |]. cbn [img_display img_src img_alt].
  split; [reflexivity |]. split; [| split; [| split; [| split; [| split]]]].
  - intros h Hh Hne. now apply or_lit_or_first.
  - intros Hh u Hu Hne. now apply or_lit_or_second.
  - intros Hh Hu. now apply or_lit_or_none.
  - intros t Ht Hne. rewrite Ht. now apply or_lit_nonempty.
  - intros Ht. now apply or_lit_missing.
  - rewrite (openModal_videos_all st r m Hm), Hseq.
    apply videos_remove.
Qed.

Lemma openModal_image_source_witness :
  option_map img_src (modalImage (exec (openModal (Some hd_record)) full_page))
  = Some "hd.jpg".
Proof.
  destruct (openModal_image_source full_page hd_record (mkModal (Some "true"))
              (mkImage true "" "" "") eq_refl eq_refl)
    as [img1 [H1 [_ [H2 _]]]].
  - discriminate.
  - rewrite H1. simpl. f_equal. apply (H2 "hd.jpg"); [reflexivity | discriminate].
Defined.

(** The claim C4 as it is worded fails for a record whose hdurl is present
    and empty: the image source becomes the url, not the hdurl. *)
Lemma openModal_empty_hdurl_counterexample :
  media_type empty_hdurl_record <> Some "video" /\
  hdurl empty_hdurl_record = Some "" /\
  option_map img_src
    (modalImage (exec (openModal (Some empty_hdurl_record)) full_page))
    = Some "u.jpg" /\
  worded_image_source empty_hdurl_record = "" /\
  option_map img_src
    (modalImage (exec (openModal (Some empty_hdurl_record)) full_page))
    <> Some (worded_image_source empty_hdurl_record).
Proof.
  split; [discriminate |]. split; [reflexivity |].
  split; [reflexivity |]. split; [reflexivity |]. discriminate.
Qed.

(** C5.  The Escape key closes a visible overlay (aria-hidden "false"): the
    page becomes what [closeModal] makes of it, with aria-hidden "true" and
    the scroll lock released.  With aria-hidden "true" or not set, or
    without a modal, the key changes nothing.  The listener never throws. *)
Theorem escape_key (st : page) :
  (option_map aria_hidden (modal st) = Some (Some "false") ->
   exec (keydown "Escape") st = exec closeModal st /\
   option_map aria_hidden (modal (exec (keydown "Escape") st))
     = Some (Some "true") /\
   body_overflow (exec (keydown "Escape") st) = "") /\
  (option_map aria_hidden (modal st) = Some (Some "true") \/
   option_map aria_hidden (modal st) = Some None \/
   modal st = None ->
   exec (keydown "Escape") st = st) /\
  result (keydown "Escape") st = Normal tt.
Proof.
  destruct_page st. simpl. destruct mdl as [[[v |]] |]; simpl.
  - destruct (String.eqb_spec v "false") as [-> | Hne].
    + run_js. split; [intros _; repeat split |]. split; [| reflexivity].
      intros [H | [H | H]]; discriminate.
    + run_js. destruct (String.eqb_spec v "false"); [contradiction |].
      simpl. split; [intros [=]; contradiction |].
      split; reflexivity.
  - run_js. split; [discriminate |]. split; reflexivity.
  - run_js. split; [discriminate |]. split; reflexivity.
Qed.

Lemma escape_key_witness :
  option_map aria_hidden
    (modal (exec (keydown "Escape") (exec (openModal (Some hd_record)) full_page)))
    = Some (Some "true") /\
  exec (keydown "Escape") full_page = full_page.
Proof.
  split.
  - apply (proj1 (escape_key (exec (openModal (Some hd_record)) full_page))).
    reflexivity.
  - apply (proj1 (proj2 (escape_key full_page))). left. reflexivity.
Defined.

Lemma closeModal_never_throws (st : page) : result closeModal st = Normal tt.
Proof. destruct_page st. destruct mdl; run_js; reflexivity. Qed.

Lemma openModal_never_throws (it : option item) (st : page) :
  result (openModal it) st = Normal tt.
Proof.
  destruct_page st. destruct it as [r |]; destruct mdl; run_js; try reflexivity.
  destruct (Js.seq (media_type r) "video"); reflexivity.
Qed.

Lemma keydown_never_throws (key : string) (st : page) :
  result (keydown key) st = Normal tt.
Proof.
  destruct_page st. destruct mdl as [[a] |]; run_js; [| reflexivity].
  destruct (key =? "Escape"); simpl; [| reflexivity].
  destruct a as [v |]; [| reflexivity].
  destruct (v =? "false"); reflexivity.
Qed.

Lemma overlay_click_never_throws (dc : Js.value) (st : page) :
  result (overlay_click dc) st = Normal tt.
Proof.
  unfold overlay_click. destruct (Js.truthy dc).
  - apply closeModal_never_throws.
  - reflexivity.
Qed.

(** C7.  No operation of the modal controller throws, on any page and for
    any argument.  [openModal] called without a record, or on a page
    without the modal, leaves the page as it is; so do [closeModal], the
    Escape listener and the overlay listener on a page without the modal. *)
Theorem modal_controller_defensive (st : page) (it : option item)
    (key : string) (dc : Js.value) :
  result (openModal it) st = Normal tt /\
  result closeModal st = Normal tt /\
  result (keydown key) st = Normal tt /\
  result (overlay_click dc) st = Normal tt /\
  (it = None \/ modal st = None -> exec (openModal it) st = st) /\
  (modal st = None ->
   exec closeModal st = st /\
   exec (keydown key) st = st /\
   exec (overlay_click dc) st = st).
Proof.
  split; [apply openModal_never_throws |].
  split; [apply closeModal_never_throws |].
  split; [apply keydown_never_throws |].
  split; [apply overlay_click_never_throws |].
  split.
  - intros [-> | Hm]; [reflexivity |].
    destruct_page st. simpl in *. subst. destruct it; reflexivity.
  - intros Hm. destruct_page st. simpl in *. subst.
    split; [reflexivity |]. split; [reflexivity |].
    unfold overlay_click. destruct (Js.truthy dc); reflexivity.
Qed.

Lemma modal_controller_defensive_witness :
  exec (openModal None) full_page = full_page /\
  exec (openModal (Some video_record)) bare_page = bare_page /\
  exec closeModal bare_page = bare_page.
Proof.
  pose proof (modal_controller_defensive full_page None "Escape" None)
    as [_ [_ [_ [_ [H1 _]]]]].
  pose proof (modal_controller_defensive bare_page (Some video_record)
                "Escape" None) as [_ [_ [_ [_ [H2 H3]]]]].
  split; [apply H1; left; reflexivity |].
  split; [apply H2; right; reflexivity |].
  apply H3. reflexivity.
Defined.

Lemma closeModal_videos (st : page) :
  (length (videos (exec closeModal st)) <= length (videos st))%nat.
Proof.
  destruct_page st. destruct mdl; run_js; [| lia].
  unfold videos, remove_modal_video. simpl.
  destruct vb, va; simpl; lia.
Qed.

Lemma openModal_videos_bound (it : option item) (st : page) (n : nat) :
  (1 <= n)%nat -> (length (videos st) <= n)%nat ->
  (length (videos (exec (openModal it) st)) <= n)%nat.
Proof.
  intros H1 Hn.
  destruct it as [r |]; [| exact Hn].
  destruct (modal st) as [m |] eqn:Hm.
  - rewrite (openModal_videos_all st r m Hm).
    unfold videos, remove_modal_video in *. simpl.
    destruct (Js.seq (media_type r) "video");
      destruct (videos_before st), (videos_after st); simpl in *;
      rewrite ?length_app in *; simpl in *; rewrite ?length_app; simpl; lia.
  - destruct_page st. simpl in Hm. subst. exact Hn.
Qed.

Lemma openModal_videos (it : option item) (st : page) :
  (length (videos (exec (openModal it) st))
   <= Nat.max 1 (length (videos st)))%nat.
Proof. apply openModal_videos_bound; lia. Qed.

Lemma closeModal_videos_bound (st : page) (n : nat) :
  (length (videos st) <= n)%nat ->
  (length (videos (exec closeModal st)) <= n)%nat.
Proof. intros H. pose proof (closeModal_videos st). lia. Qed.

Lemma run_ops_videos (ops : list modal_op) (st : page) (n : nat) :
  (1 <= n)%nat -> (length (videos st) <= n)%nat ->
  (length (videos (run_ops ops st)) <= n)%nat.
Proof.
  intros H1. revert st.
  induction ops as [| op ops IH]; intros st Hn; [exact Hn |].
  change (run_ops (op :: ops) st) with (run_ops ops (exec (run_op op) st)).
  apply IH. destruct op as [it |].
  - now apply openModal_videos_bound.
  - now apply closeModal_videos_bound.
Qed.

Lemma run_op_modal (op : modal_op) (st : page) :
  present (modal (exec (run_op op) st)) = present (modal st).
Proof.
  destruct (modal st) as [m |] eqn:Hm.
  - destruct op as [[r |] |]; simpl.
    + now rewrite (openModal_modal st r m Hm).
    + unfold exec, openModal, bind, get, ret. simpl. now rewrite Hm.
    + now rewrite (closeModal_modal st m Hm).
  - destruct_page st. simpl in Hm. subst.
    destruct op as [[r |] |]; reflexivity.
Qed.

Lemma run_ops_modal (ops : list modal_op) (st : page) :
  present (modal (run_ops ops st)) = present (modal st).
Proof.
  revert st. induction ops as [| op ops IH]; intros st; [reflexivity |].
  change (run_ops (op :: ops) st) with (run_ops ops (exec (run_op op) st)).
  now rewrite IH, run_op_modal.
Qed.

(** C10.  On a page whose ids are unique (at most one element has the id
    "modal-video"), after every finite sequence of [openModal] and
    [closeModal] calls at most one such element is in the document.  On a
    page with the modal, a further [closeModal] leaves none, and a further
    [openModal] of a record leaves the new iframe alone for a video record
    and none for any other record: the embed of an earlier call is removed
    first. *)
Theorem at_most_one_video_embed (ops : list modal_op) (st : page) :
  (length (videos st) <= 1)%nat ->
  let st' := run_ops ops st in
  (length (videos st') <= 1)%nat /\
  (modal st <> None -> videos (exec closeModal st') = []) /\
  (modal st <> None ->
   forall r,
     videos (exec (openModal (Some r)) st')
     = if Js.seq (media_type r) "video"
       then [new_iframe (Js.or_lit (Js.or (url r) (thumbnail_url r)) "")]
       else []).
Proof.
  intros H st'.
  assert (Hlen : (length (videos st') <= 1)%nat) by now apply run_ops_videos.
  assert (Hm : modal st <> None -> exists m, modal st' = Some m).
  { intros Hne. pose proof (run_ops_modal ops st) as Hp. fold st' in Hp.
    destruct (modal st') as [m |]; [eauto |].
    destruct (modal st); [discriminate | contradiction]. }
  split; [exact Hlen |]. split.
  - intros Hne. destruct (Hm Hne) as [m Hm'].
    rewrite (closeModal_videos_removed st' m Hm').
    destruct (videos st') as [| ? [| ? ?]]; simpl in *; [reflexivity .. | lia].
  - intros Hne r. destruct (Hm Hne) as [m Hm'].
    destruct (remove_modal_video_unique st' Hlen) as [Hb Ha].
    rewrite (openModal_videos_all st' r m Hm'), Hb, Ha.
    destruct (Js.seq (media_type r) "video"); reflexivity.
Qed.

Lemma at_most_one_video_embed_witness :
  (length
     (videos
        (run_ops [Open (Some video_record); Open (Some video_record);
                  Open (Some hd_record); Close; Open (Some video_record)]
           full_page)) <= 1)%nat.
Proof.
  apply (at_most_one_video_embed _ full_page). simpl. lia.
Defined.

(** ** Gallery loader *)

Ltac run_loader :=
  unfold exec, result, getImageBtn_click, load_gallery, try_catch, await_fetch,
    await_json, gallery_set_innerHTML, gallery_appendChild, console_error,
    render_item, prop, bind, ret, get, modify, throw in *;
  simpl in *.

Lemma render_item_record (r : item) (st : page) :
  render_item (Some r) st
  = (Normal tt,
     set_gallery
       (option_map (fun g => mkGallery (g_parent g) (g_kids g ++ [tile_child r]))
          (gallery st)) st).
Proof.
  unfold render_item, tile_child, tile_for, prop, bind, ret,
    gallery_appendChild, modify. simpl.
  destruct (Js.and_cond (media_type r) (Js.seq (media_type r) "video"));
    reflexivity.
Qed.

Lemma forEach_records (rs : list item) (st : page) (g : gallery_el) :
  gallery st = Some g ->
  forEach (map Some rs) render_item st
  = (Normal tt,
     set_gallery (Some (mkGallery (g_parent g) (g_kids g ++ map tile_child rs)))
       st).
Proof.
  revert st g. induction rs as [| r rs IH]; intros st g Hg.
  - simpl. unfold ret. rewrite app_nil_r.
    destruct st. simpl in *. subst. destruct g. reflexivity.
  - simpl. unfold bind. rewrite render_item_record. rewrite Hg. simpl.
    erewrite IH by reflexivity. simpl.
    rewrite <- app_assoc. destruct st; reflexivity.
Qed.

Lemma gallery_set_innerHTML_present (html : string) (st : page) (g : gallery_el) :
  gallery st = Some g ->
  gallery_set_innerHTML html st
  = (Normal tt,
     set_gallery
       (Some (mkGallery (g_parent g) (if html =? "" then [] else [Parsed html])))
       st).
Proof. intros Hg. unfold gallery_set_innerHTML. now rewrite Hg. Qed.

Lemma load_gallery_records (s : nat) (rs : list item) (st : page) (g : gallery_el) :
  gallery st = Some g -> rs <> [] ->
  ok (mkResponse s (JsonParsed (PArray (map Some rs)))) = true ->
  load_gallery (array_response s (map Some rs)) st
  = (Normal tt,
     set_gallery (Some (mkGallery (g_parent g) (map tile_child rs))) st).
Proof.
  intros Hg Hne Hok.
  unfold load_gallery, array_response, try_catch, await_fetch, await_json,
    bind, ret. rewrite Hok. simpl.
  destruct rs as [| r rs]; [congruence |].
  cbn [map length Nat.eqb elements].
  rewrite (gallery_set_innerHTML_present "" st g Hg). cbv beta iota.
  change (Some r :: map Some rs) with (map Some (r :: rs)).
  erewrite forEach_records by reflexivity.
  destruct st; reflexivity.
Qed.

Lemma ok_range (r : response) :
  ok r = true <-> (200 <= status r <= 299)%nat.
Proof.
  unfold ok. rewrite andb_true_iff, !Nat.leb_le. tauto.
Qed.

Lemma tile_marker (r : item) :
  has_play_marker (tile_for r) = true <-> media_type r = Some "video".
Proof.
  unfold tile_for, Js.and_cond.
  destruct (media_type r) as [mt |]; simpl.
  - destruct (String.eqb_spec mt "video") as [-> | Hne]; simpl.
    + split; reflexivity.
    + rewrite andb_false_r. simpl.
      split; [discriminate | intros [=]; contradiction].
  - split; discriminate.
Qed.

Lemma tiles_one_per_record (rs : list item) (st : page) :
  gallery_children st = map tile_child rs ->
  one_tile_per_record (map Some rs) st.
Proof.
  unfold one_tile_per_record. intros ->.
  induction rs as [| r rs IH]; simpl; constructor; [| exact IH].
  exists (tile_for r). split; [reflexivity |].
  rewrite tile_marker. split.
  - intros H. exists r. auto.
  - intros [r' [[= <-] H]]. exact H.
Qed.

Lemma click_present (o : fetch_outcome) (st : page) (g : gallery_el) :
  gallery st = Some g ->
  getImageBtn_click o st
  = load_gallery o
      (set_gallery (Some (mkGallery (g_parent g) [Parsed loading_markup])) st).
Proof.
  intros Hg. unfold getImageBtn_click, bind, get. cbv beta iota.
  rewrite Hg. cbn [present negb].
  rewrite (gallery_set_innerHTML_present loading_markup st g Hg). reflexivity.
Qed.

(** C1 (as amended).  On a page with the gallery, for a response with a
    status in 200-299 whose body parses to a non-empty array of records
    (no element is [null]), the loader leaves in the gallery exactly one
    tile per record, in the order of the array, each wired to its record
    and carrying the play marker exactly when the media type of the record
    is "video"; nothing is logged. *)
Theorem loader_renders_records (st : page) (g : gallery_el) (s : nat)
    (rs : list item) :
  gallery st = Some g -> (200 <= s <= 299)%nat -> rs <> [] ->
  let st' := exec (getImageBtn_click (array_response s (map Some rs))) st in
  gallery_children st' = map tile_child rs /\
  one_tile_per_record (map Some rs) st' /\
  console st' = console st.
Proof.
  intros Hg Hs Hne st'.
  assert (E : gallery_children st' = map tile_child rs /\ console st' = console st).
  { subst st'. unfold exec. rewrite (click_present _ st g Hg).
    erewrite load_gallery_records; [| reflexivity | exact Hne | now apply ok_range].
    destruct st; split; reflexivity. }
  destruct E as [E1 E2]. split; [exact E1 |]. split; [| exact E2].
  now apply tiles_one_per_record.
Qed.

Lemma loader_renders_records_witness :
  gallery_children
    (exec (getImageBtn_click (array_response 200 [Some record_A; Some record_B]))
       full_page)
  = [tile_child record_A; tile_child record_B] /\
  has_play_marker (tile_for record_A) = false /\
  has_play_marker (tile_for record_B) = true.
Proof.
  split; [| split; reflexivity].
  apply (loader_renders_records full_page (mkGallery true []) 200
           [record_A; record_B]).
  - reflexivity.
  - lia.
  - discriminate.
Defined.

(** The claim C1 as it is worded fails for an array with a [null] element:
    reading its media type throws, the handler replaces the tiles built so
    far by the error message, and the gallery ends up without any tile. *)
Lemma loader_null_element_counterexample :
  let data := [Some record_A; None] in
  let st' := exec (getImageBtn_click (array_response 200 data)) full_page in
  data <> [] /\ tiles st' = [] /\ ~ one_tile_per_record data st'.
Proof.
  split; [discriminate |]. split; [reflexivity |].
  intros H. inversion H as [| c it cs its [el [Hc _]] Hrest]; subst.
  vm_compute in Hc. discriminate.
Qed.

Lemma error_markup_quotes (e : js_error) :
  exists pre post, error_markup e = (pre ++ message e ++ post)%string.
Proof.
  exists ("<p class=" ++ dq ++ "error" ++ dq ++ ">Error loading images: ")%string,
    "</p>".
  reflexivity.
Qed.

(** The catch block on a page with the gallery. *)
Lemma show_load_error_present (e : js_error) (st : page) (g : gallery_el) :
  gallery st = Some g ->
  show_load_error e st
  = (Normal tt,
     set_console (console st ++ [("Failed to load APOD data:", e)])
       (set_gallery (Some (mkGallery (g_parent g) [Parsed (error_markup e)]))
          st)).
Proof.
  intros Hg. unfold show_load_error, bind.
  rewrite (gallery_set_innerHTML_present _ st g Hg). reflexivity.
Qed.

Lemma load_gallery_rejected (e : js_error) (st : page) :
  load_gallery (FetchRejected e) st = show_load_error e st.
Proof. reflexivity. Qed.

Lemma load_gallery_not_ok (r : response) (st : page) :
  ok r = false ->
  load_gallery (FetchResolved r) st = show_load_error (not_ok_error r) st.
Proof.
  intros Hok. unfold load_gallery, try_catch, await_fetch, bind, ret, throw.
  rewrite Hok. reflexivity.
Qed.

Lemma load_gallery_bad_json (r : response) (e : js_error) (st : page) :
  ok r = true -> body r = JsonRejected e ->
  load_gallery (FetchResolved r) st = show_load_error e st.
Proof.
  intros Hok Hb.
  unfold load_gallery, try_catch, await_fetch, await_json, bind, ret, throw.
  rewrite Hok, Hb. reflexivity.
Qed.

Lemma load_gallery_no_data (r : response) (p : payload) (st : page)
    (g : gallery_el) :
  gallery st = Some g ->
  ok r = true -> body r = JsonParsed p ->
  isArray p = false \/ p = PArray [] ->
  load_gallery (FetchResolved r) st
  = (Normal tt,
     set_gallery (Some (mkGallery (g_parent g) [Parsed no_images_markup])) st).
Proof.
  intros Hg Hok Hb Hp.
  assert (Hc : negb (isArray p) || (length (elements p) =? 0)%nat = true).
  { destruct Hp as [Hp | ->]; [now rewrite Hp | reflexivity]. }
  unfold load_gallery, try_catch, await_fetch, await_json, bind, ret, throw.
  rewrite Hok, Hb. cbn [negb]. cbv beta iota. rewrite Hc.
  rewrite (gallery_set_innerHTML_present _ st g Hg). reflexivity.
Qed.

Lemma shows_error_after (e : js_error) (st : page) (g : gallery_el) :
  gallery st = Some g ->
  shows_error e st
    (snd (show_load_error e
            (set_gallery (Some (mkGallery (g_parent g) [Parsed loading_markup]))
               st))).
Proof.
  intros Hg. erewrite show_load_error_present by reflexivity.
  unfold shows_error, tiles, gallery_children. simpl.
  split; [reflexivity |]. split; [apply error_markup_quotes |].
  split; reflexivity.
Qed.

(** C2.  On a page with the gallery: when the fetch fails, or resolves with
    a status outside 200-299, the gallery ends up holding the error message
    alone, which quotes the message of the failure (for a bad status, the
    message with that status), no tile, and the failure is the newest entry
    of the console; when the response is ok and parses to a value that is
    not an array, or to the empty array, the gallery holds the "No images
    found." message alone, no tile, and the console is unchanged. *)
Theorem loader_error_and_no_data (st : page) (g : gallery_el) :
  gallery st = Some g ->
  (forall e,
      shows_error e st (exec (getImageBtn_click (FetchRejected e)) st)) /\
  (forall r,
      ~ (200 <= status r <= 299)%nat ->
      shows_error (not_ok_error r) st
        (exec (getImageBtn_click (FetchResolved r)) st)) /\
  (forall r p,
      (200 <= status r <= 299)%nat -> body r = JsonParsed p ->
      isArray p = false \/ p = PArray [] ->
      let st' := exec (getImageBtn_click (FetchResolved r)) st in
      gallery_children st' = [Parsed no_images_markup] /\
      tiles st' = [] /\
      console st' = console st).
Proof.
  intros Hg. split; [| split].
  - intros e. unfold exec. rewrite (click_present _ st g Hg).
    rewrite load_gallery_rejected. now apply shows_error_after.
  - intros r Hr. unfold exec. rewrite (click_present _ st g Hg).
    rewrite load_gallery_not_ok.
    + now apply shows_error_after.
    + destruct (ok r) eqn:E; [| reflexivity]. apply ok_range in E. contradiction.
  - intros r p Hr Hb Hp st'. subst st'. unfold exec.
    rewrite (click_present _ st g Hg).
    erewrite load_gallery_no_data;
      [| reflexivity | now apply ok_range | exact Hb | exact Hp ].
    destruct st; repeat split.
Qed.

Lemma loader_error_and_no_data_witness :
  gallery_children
    (exec (getImageBtn_click
             (FetchResolved (mkResponse 404 (JsonParsed (PArray [Some record_A])))))
       full_page)
  = [Parsed (error_markup (mkError "Error" "Network response was not ok (404)"))] /\
  gallery_children (exec (getImageBtn_click (array_response 200 [])) full_page)
  = [Parsed no_images_markup].
Proof.
  pose proof (loader_error_and_no_data full_page (mkGallery true []) eq_refl)
    as [_ [Hbad Hnone]].
  split.
  - apply (Hbad (mkResponse 404 (JsonParsed (PArray [Some record_A])))).
    simpl. lia.
  - apply (Hnone (mkResponse 200 (JsonParsed (PArray []))) (PArray [])).
    + simpl. lia.
    + reflexivity.
    + right. reflexivity.
Defined.

Section Frame.

Lemma keeps_ret {A} (a : A) : keeps_outside_gallery (ret a).
Proof. intros st. reflexivity. Qed.

Lemma keeps_throw {A} (e : js_error) : keeps_outside_gallery (@throw A e).
Proof. intros st. reflexivity. Qed.

Lemma keeps_get : keeps_outside_gallery get.
Proof. intros st. reflexivity. Qed.

Lemma keeps_bind {A B} (c : M A) (k : A -> M B) :
  keeps_outside_gallery c -> (forall a, keeps_outside_gallery (k a)) ->
  keeps_outside_gallery (bind c k).
Proof.
  intros Hc Hk st. unfold bind. specialize (Hc st).
  destruct (c st) as [[a | e] st1]; simpl in *.
  - now rewrite Hk.
  - exact Hc.
Qed.

Lemma keeps_try_catch {A} (c : M A) (h : js_error -> M A) :
  keeps_outside_gallery c -> (forall e, keeps_outside_gallery (h e)) ->
  keeps_outside_gallery (try_catch c h).
Proof.
  intros Hc Hh st. unfold try_catch. specialize (Hc st).
  destruct (c st) as [[a | e] st1]; simpl in *.
  - exact Hc.
  - now rewrite Hh.
Qed.

Lemma keeps_forEach {A} (l : list A) (f : A -> M unit) :
  (forall x, keeps_outside_gallery (f x)) ->
  keeps_outside_gallery (forEach l f).
Proof.
  intros Hf. induction l as [| x l IH]; simpl.
  - apply keeps_ret.
  - apply keeps_bind; [apply Hf | intros _; exact IH].
Qed.

Lemma keeps_set_innerHTML (html : string) :
  keeps_outside_gallery (gallery_set_innerHTML html).
Proof.
  intros st. unfold gallery_set_innerHTML.
  destruct (gallery st) as [g |] eqn:Hg; [| reflexivity].
  destruct st. simpl in *. subst. reflexivity.
Qed.

Lemma keeps_appendChild (c : gallery_child) :
  keeps_outside_gallery (gallery_appendChild c).
Proof.
  intros st. destruct st as [? [g |] ? ? ? ? ? ? ? ? ? ? ? ? ?]; reflexivity.
Qed.

Lemma keeps_console_error (label : string) (e : js_error) :
  keeps_outside_gallery (console_error label e).
Proof. intros st. destruct st. reflexivity. Qed.

Lemma keeps_prop (it : option item) (name : string) (f : item -> Js.value) :
  keeps_outside_gallery (prop it name f).
Proof. destruct it; [apply keeps_ret | apply keeps_throw]. Qed.

Lemma keeps_render_item (it : option item) :
  keeps_outside_gallery (render_item it).
Proof.
  unfold render_item.
  repeat first
    [ apply keeps_bind; [| intros ?]
    | apply keeps_prop
    | apply keeps_ret
    | apply keeps_appendChild
    | match goal with
      | |- keeps_outside_gallery (if ?b then _ else _) => destruct b
      end ].
Qed.

Lemma keeps_show_load_error (e : js_error) :
  keeps_outside_gallery (show_load_error e).
Proof.
  apply keeps_bind; [apply keeps_set_innerHTML |].
  intros _. apply keeps_console_error.
Qed.

Lemma keeps_load_gallery (o : fetch_outcome) :
  keeps_outside_gallery (load_gallery o).
Proof.
  unfold load_gallery.
  apply keeps_try_catch; [| apply keeps_show_load_error].
  apply keeps_bind.
  { destruct o; [apply keeps_throw | apply keeps_ret]. }
  intros response. apply keeps_bind.
  { destruct (negb (ok response)); [apply keeps_throw | apply keeps_ret]. }
  intros _. apply keeps_bind.
  { unfold await_json. destruct (body response);
      [apply keeps_throw | apply keeps_ret]. }
  intros data.
  destruct (negb (isArray data) || (length (elements data) =? 0)%nat).
  - apply keeps_set_innerHTML.
  - apply keeps_bind; [apply keeps_set_innerHTML |].
    intros _. apply keeps_forEach. apply keeps_render_item.
Qed.

Lemma keeps_getImageBtn_click (o : fetch_outcome) :
  keeps_outside_gallery (getImageBtn_click o).
Proof.
  unfold getImageBtn_click. apply keeps_bind; [apply keeps_get |].
  intros st. destruct (negb (present (gallery st))); [apply keeps_ret |].
  apply keeps_bind; [apply keeps_set_innerHTML |].
  intros _. apply keeps_load_gallery.
Qed.

End Frame.

Lemma outside_gallery_present (st st' : page) :
  outside_gallery st' = outside_gallery st ->
  forall g, gallery st = Some g ->
  exists g', gallery st' = Some g' /\ g_parent g' = g_parent g.
Proof.
  intros H g Hg. apply (f_equal gallery) in H.
  destruct st, st'. simpl in *. subst.
  destruct gallery1 as [g' |]; [| discriminate].
  exists g'. split; [reflexivity |]. simpl in H. now inversion H.
Qed.

(** C6.  On a page with the gallery, whatever an earlier click of the
    button made of the page, a later click whose response is ok and parses
    to a non-empty array of records leaves in the gallery exactly the tiles
    of that response: earlier tiles, the loading placeholder and any message
    are replaced.  The same holds for whatever the gallery holds when the
    fetch settles.  No click changes anything of the page outside of the
    content of the gallery (the console apart). *)
Theorem loader_replaces_gallery (st : page) (g : gallery_el)
    (o1 : fetch_outcome) (s : nat) (rs : list item) :
  gallery st = Some g -> (200 <= s <= 299)%nat -> rs <> [] ->
  let o2 := array_response s (map Some rs) in
  let st1 := exec (getImageBtn_click o1) st in
  let st2 := exec (getImageBtn_click o2) st1 in
  gallery_children st2 = map tile_child rs /\
  (forall kids,
      gallery_children
        (exec (load_gallery o2) (set_gallery (Some (mkGallery (g_parent g) kids)) st))
      = map tile_child rs) /\
  outside_gallery st1 = outside_gallery st /\
  outside_gallery st2 = outside_gallery st1.
Proof.
  intros Hg Hs Hne o2 st1 st2.
  assert (H1 : outside_gallery st1 = outside_gallery st)
    by apply keeps_getImageBtn_click.
  assert (H2 : outside_gallery st2 = outside_gallery st1)
    by apply keeps_getImageBtn_click.
  destruct (outside_gallery_present st st1 H1 g Hg) as [g1 [Hg1 _]].
  split; [| split; [| split; assumption]].
  - unfold st2, o2, exec. rewrite (click_present _ st1 g1 Hg1).
    erewrite load_gallery_records;
      [| reflexivity | exact Hne | now apply ok_range].
    reflexivity.
  - intros kids. unfold exec, o2.
    erewrite load_gallery_records;
      [| reflexivity | exact Hne | now apply ok_range].
    reflexivity.
Qed.

Lemma loader_replaces_gallery_witness :
  gallery_children
    (exec (getImageBtn_click (array_response 200 [Some record_B]))
       (exec (getImageBtn_click (array_response 200 [Some record_A; Some record_B]))
          full_page))
  = [tile_child record_B].
Proof.
  apply (loader_replaces_gallery full_page (mkGallery true [])
           (array_response 200 [Some record_A; Some record_B]) 200 [record_B]).
  - reflexivity.
  - lia.
  - discriminate.
Defined.

(** ** Gallery loader: every outcome *)

Lemma all_records_map (rs : list item) : all_records (map Some rs) = Some rs.
Proof.
  induction rs as [| r rs IH]; simpl; [reflexivity | now rewrite IH].
Qed.

Lemma all_records_some (data : list (option item)) (rs : list item) :
  all_records data = Some rs -> data = map Some rs.
Proof.
  revert rs. induction data as [| [r |] data IH]; simpl; intros rs H.
  - inversion H. reflexivity.
  - destruct (all_records data) as [rs' |]; [| discriminate].
    inversion H; subst. simpl. now rewrite (IH rs' eq_refl).
  - discriminate.
Qed.

Lemma all_records_none (data : list (option item)) :
  all_records data = None ->
  exists pre rest, data = map Some pre ++ None :: rest.
Proof.
  induction data as [| [r |] data IH]; simpl; intros H.
  - discriminate.
  - destruct (all_records data) as [rs' |]; [discriminate |].
    destruct (IH eq_refl) as [pre [rest ->]].
    exists (r :: pre), rest. reflexivity.
  - exists [], data. reflexivity.
Qed.

(** The loop stops at the first [null] element, with the tiles of the
    records before it appended. *)
Lemma forEach_null (pre : list item) (rest : list (option item)) (st : page)
    (g : gallery_el) :
  gallery st = Some g ->
  forEach (map Some pre ++ None :: rest) render_item st
  = (Throw null_record_error,
     set_gallery (Some (mkGallery (g_parent g) (g_kids g ++ map tile_child pre)))
       st).
Proof.
  revert st g. induction pre as [| r pre IH]; intros st g Hg.
  - simpl. rewrite app_nil_r.
    destruct st. simpl in *. subst. destruct g. reflexivity.
  - simpl. unfold bind. rewrite render_item_record. rewrite Hg. simpl.
    erewrite IH by reflexivity. simpl.
    rewrite <- app_assoc. destruct st; reflexivity.
Qed.

Lemma load_gallery_null (s : nat) (pre : list item) (rest : list (option item))
    (st : page) (g : gallery_el) :
  gallery st = Some g ->
  ok (mkResponse s (JsonParsed (PArray (map Some pre ++ None :: rest)))) = true ->
  load_gallery (array_response s (map Some pre ++ None :: rest)) st
  = show_load_error null_record_error
      (set_gallery (Some (mkGallery (g_parent g) (map tile_child pre))) st).
Proof.
  intros Hg Hok.
  unfold load_gallery, array_response, try_catch, await_fetch, await_json,
    bind, ret. rewrite Hok. cbn [negb body status]. cbv beta iota.
  assert (Hlen : (length (elements (PArray (map Some pre ++ None :: rest))) =? 0)%nat
                 = false).
  { cbn [elements]. rewrite length_app. simpl.
    apply Nat.eqb_neq. lia. }
  rewrite Hlen. cbn [isArray negb orb]. cbv beta iota.
  rewrite (gallery_set_innerHTML_present "" st g Hg). cbv beta iota.
  cbn [elements].
  erewrite forEach_null by reflexivity.
  cbv beta iota. f_equal.
Qed.

Lemma show_display_tiles (rs : list item) (g : gallery_el) (st : page) :
  show_display (ShowTiles rs) g st
  = set_gallery (Some (mkGallery (g_parent g) (map tile_child rs))) st.
Proof.
  unfold show_display. simpl. rewrite app_nil_r. destruct st; reflexivity.
Qed.

Lemma show_display_no_images (g : gallery_el) (st : page) :
  show_display ShowNoImages g st
  = set_gallery (Some (mkGallery (g_parent g) [Parsed no_images_markup])) st.
Proof.
  unfold show_display. simpl. rewrite app_nil_r. destruct st; reflexivity.
Qed.

Lemma show_load_error_display (e : js_error) (st : page) (g : gallery_el)
    (kids : list gallery_child) :
  show_load_error e (set_gallery (Some (mkGallery (g_parent g) kids)) st)
  = (Normal tt, show_display (ShowError e) g st).
Proof.
  erewrite show_load_error_present by reflexivity.
  destruct st; reflexivity.
Qed.

(** Once the fetch has settled, on a page with the gallery (holding
    anything, [kids]), the
    [try ... catch] statement completes normally and leaves the page with
    the gallery showing the display of the outcome and the console extended
    by its log, whatever the gallery held before. *)
Lemma load_gallery_settles (o : fetch_outcome) (st : page) (g : gallery_el)
    (kids : list gallery_child) :
  gallery st = Some g ->
  load_gallery o (set_gallery (Some (mkGallery (g_parent g) kids)) st)
  = (Normal tt, show_display (settled o) g st).
Proof.
  intros Hg.
  set (st0 := set_gallery (Some (mkGallery (g_parent g) kids)) st).
  assert (Hg0 : gallery st0 = Some (mkGallery (g_parent g) kids)) by reflexivity.
  destruct o as [e | r].
  - rewrite load_gallery_rejected. apply show_load_error_display.
  - unfold settled. destruct (ok r) eqn:Hok.
    + destruct (body r) as [e | p] eqn:Hb.
      * rewrite (load_gallery_bad_json r e st0 Hok Hb).
        apply show_load_error_display.
      * assert (Hno : isArray p = false \/ p = PArray [] ->
                      load_gallery (FetchResolved r) st0
                      = (Normal tt, show_display ShowNoImages g st)).
        { intros Hp.
          rewrite (load_gallery_no_data r p st0 _ Hg0 Hok Hb Hp).
          rewrite show_display_no_images. destruct st; reflexivity. }
        destruct p as [j | it | [| x data]];
          [apply Hno; left; reflexivity .. | apply Hno; right; reflexivity |].
        destruct r as [s b]. simpl in Hb. subst b.
        destruct (all_records (x :: data)) as [rs |] eqn:Hall.
        -- apply all_records_some in Hall. rewrite Hall in *.
           change (FetchResolved (mkResponse s (JsonParsed (PArray (map Some rs)))))
             with (array_response s (map Some rs)).
           rewrite (load_gallery_records s rs st0 _ Hg0); [| | exact Hok].
           ++ rewrite show_display_tiles. destruct st; reflexivity.
           ++ intros ->. discriminate.
        -- destruct (all_records_none _ Hall) as [pre [rest Hd]].
           rewrite Hd in *.
           change (FetchResolved
                     (mkResponse s (JsonParsed (PArray (map Some pre ++ None :: rest)))))
             with (array_response s (map Some pre ++ None :: rest)).
           rewrite (load_gallery_null s pre rest st0 _ Hg0 Hok).
           cbn [g_parent].
           replace (set_gallery
                      (Some (mkGallery (g_parent g) (map tile_child pre))) st0)
             with (set_gallery
                     (Some (mkGallery (g_parent g) (map tile_child pre))) st)
             by (destruct st; reflexivity).
           apply show_load_error_display.
    + rewrite (load_gallery_not_ok r st0 Hok). apply show_load_error_display.
Qed.

Lemma gallery_restore (st : page) (g : gallery_el) :
  gallery st = Some g ->
  set_gallery (Some (mkGallery (g_parent g) (g_kids g))) st = st.
Proof. intros Hg. destruct st. simpl in *. subst. destruct g. reflexivity. Qed.

Lemma load_gallery_present (o : fetch_outcome) (st : page) (g : gallery_el) :
  gallery st = Some g ->
  load_gallery o st = (Normal tt, show_display (settled o) g st).
Proof.
  intros Hg. rewrite <- (gallery_restore st g Hg) at 1.
  now apply load_gallery_settles.
Qed.

(** X1.  On a page with the gallery a click completes normally and leaves
    the page with the gallery showing the display of the fetch outcome
    (tiles, the no-images message or the error message) and the console
    extended by its log (the error, if any): the placeholder never stays
    and the content the gallery had before has no influence. *)
Theorem click_settles (o : fetch_outcome) (st : page) (g : gallery_el) :
  gallery st = Some g ->
  getImageBtn_click o st = (Normal tt, show_display (settled o) g st).
Proof.
  intros Hg. rewrite (click_present o st g Hg).
  now apply load_gallery_settles.
Qed.

Lemma click_settles_witness :
  gallery_children
    (exec (getImageBtn_click (array_response 200 [Some record_A; Some record_B]))
       full_page)
  = [tile_child record_A; tile_child record_B].
Proof.
  unfold exec.
  rewrite (click_settles (array_response 200 [Some record_A; Some record_B])
             full_page (mkGallery true []) eq_refl).
  reflexivity.
Defined.

Lemma load_gallery_settles_witness :
  gallery_children
    (exec (load_gallery (array_response 200 [Some record_B]))
       (set_gallery (Some (mkGallery true [tile_child record_A])) full_page))
  = [tile_child record_B].
Proof.
  exact (f_equal (fun p => gallery_children (snd p))
           (load_gallery_settles (array_response 200 [Some record_B]) full_page
              (mkGallery true []) [tile_child record_A] eq_refl)).
Defined.

Lemma all_records_null (pre : list item) (rest : list (option item)) :
  all_records (map Some pre ++ None :: rest) = None.
Proof.
  induction pre as [| r pre IH]; simpl; [reflexivity | now rewrite IH].
Qed.

Lemma shows_error_display (e : js_error) (g : gallery_el) (st : page) :
  shows_error e st (show_display (ShowError e) g st).
Proof.
  unfold shows_error, show_display, tiles, gallery_children. simpl.
  split; [reflexivity |]. split; [apply error_markup_quotes |].
  split; reflexivity.
Qed.

(** X2.  On a page with the gallery, when an ok response parses to an array
    with a [null] element, at any position, the click ends with the error
    message of the TypeError in the gallery, no tile (the tiles built for
    the records before the [null] are gone) and the TypeError logged. *)
Theorem click_null_element (s : nat) (pre : list item)
    (rest : list (option item)) (st : page) (g : gallery_el) :
  gallery st = Some g -> (200 <= s <= 299)%nat ->
  shows_error null_record_error st
    (exec (getImageBtn_click (array_response s (map Some pre ++ None :: rest)))
       st).
Proof.
  intros Hg Hs. unfold exec.
  rewrite (click_present _ st g Hg), (load_gallery_settles _ st g _ Hg).
  assert (Hok : ok (mkResponse s (JsonParsed (PArray (map Some pre ++ None :: rest))))
                = true) by now apply ok_range.
  unfold settled, array_response. rewrite Hok. cbn [body].
  destruct (map Some pre ++ None :: rest) as [| x data] eqn:E.
  { destruct pre; discriminate. }
  rewrite <- E, all_records_null. apply shows_error_display.
Qed.

Lemma click_null_element_witness :
  tiles
    (exec (getImageBtn_click
             (array_response 200 [Some record_A; None; Some record_B]))
       full_page) = [].
Proof.
  apply (click_null_element 200 [record_A] [Some record_B] full_page
           (mkGallery true []) eq_refl).
  lia.
Defined.

(** X3.  On a page with the gallery, when the response is ok and its body
    is not JSON ([response.json()] rejects with [e]), the click ends with
    the error message of [e] in the gallery, no tile, and [e] logged. *)
Theorem click_bad_json (r : response) (e : js_error) (st : page)
    (g : gallery_el) :
  gallery st = Some g -> (200 <= status r <= 299)%nat ->
  body r = JsonRejected e ->
  shows_error e st (exec (getImageBtn_click (FetchResolved r)) st).
Proof.
  intros Hg Hs Hb. unfold exec.
  rewrite (click_present _ st g Hg), (load_gallery_settles _ st g _ Hg).
  unfold settled. rewrite (proj2 (ok_range r) Hs), Hb.
  apply shows_error_display.
Qed.

Lemma click_bad_json_witness :
  gallery_children
    (exec (getImageBtn_click
             (FetchResolved
                (mkResponse 200
                   (JsonRejected (mkError "SyntaxError" "Unexpected token")))))
       full_page)
  = [Parsed (error_markup (mkError "SyntaxError" "Unexpected token"))].
Proof.
  apply (click_bad_json
           (mkResponse 200 (JsonRejected (mkError "SyntaxError" "Unexpected token")))
           (mkError "SyntaxError" "Unexpected token") full_page
           (mkGallery true []) eq_refl).
  - simpl. lia.
  - reflexivity.
Defined.

Lemma getImageBtn_click_result (o : fetch_outcome) (st : page) :
  result (getImageBtn_click o) st = Normal tt.
Proof.
  unfold result. destruct (gallery st) as [g |] eqn:Hg.
  - rewrite (click_present o st g Hg), (load_gallery_settles o st g _ Hg).
    reflexivity.
  - unfold getImageBtn_click, bind, get. cbv beta iota. rewrite Hg. reflexivity.
Qed.

(** X4.  The click handler never throws, on any page and for any outcome
    of the fetch; on a page without the gallery it changes nothing. *)
Theorem click_never_throws (o : fetch_outcome) (st : page) :
  result (getImageBtn_click o) st = Normal tt /\
  (gallery st = None -> exec (getImageBtn_click o) st = st).
Proof.
  split; [apply getImageBtn_click_result |].
  intros Hg. unfold exec, getImageBtn_click, bind, get. cbv beta iota.
  rewrite Hg. reflexivity.
Qed.

Lemma click_never_throws_witness :
  exec (getImageBtn_click (array_response 200 [Some record_A])) bare_page
  = bare_page.
Proof.
  apply (click_never_throws (array_response 200 [Some record_A]) bare_page).
  reflexivity.
Defined.

Lemma click_begin_split (o : fetch_outcome) (st : page) :
  getImageBtn_click o st
  = (b <- click_begin ;; if b then load_gallery o else ret tt) st.
Proof.
  unfold getImageBtn_click, click_begin, bind, get, ret. cbv beta iota.
  destruct (negb (present (gallery st))); [reflexivity |].
  destruct (gallery_set_innerHTML loading_markup st) as [[[] | e] st1];
    reflexivity.
Qed.

Lemma click_begin_present (st : page) (g : gallery_el) :
  gallery st = Some g ->
  click_begin st
  = (Normal true,
     set_gallery (Some (mkGallery (g_parent g) [Parsed loading_markup])) st).
Proof.
  intros Hg. unfold click_begin, bind, get, ret. cbv beta iota.
  rewrite Hg. cbn [present negb].
  rewrite (gallery_set_innerHTML_present loading_markup st g Hg). reflexivity.
Qed.

Lemma resume_fetch_present (o : fetch_outcome) (st : page) (g : gallery_el) :
  gallery st = Some g ->
  resume_fetch o st
  = match o with
    | FetchResolved r =>
        if ok r then (Normal (AwaitingJson r), st)
        else (Normal Returned, show_display (settled o) g st)
    | FetchRejected _ => (Normal Returned, show_display (settled o) g st)
    end.
Proof.
  intros Hg. destruct o as [e | r].
  - unfold resume_fetch, try_catch, bind, await_fetch, throw. cbv beta iota.
    rewrite (show_load_error_present e st g Hg). reflexivity.
  - unfold resume_fetch, try_catch, bind, await_fetch, throw, ret, settled.
    cbv beta iota. destruct (ok r); cbn [negb]; [reflexivity |].
    cbv beta iota.
    rewrite (show_load_error_present _ st g Hg). reflexivity.
Qed.

(** The two resumptions, one after the other, are the [try ... catch]
    statement of the handler. *)
Lemma resume_json_load_gallery (r : response) (st : page) :
  ok r = true ->
  resume_json r st = (load_gallery (FetchResolved r) ;; ret Returned) st.
Proof.
  intros Hok.
  unfold resume_json, load_gallery, try_catch, bind, await_fetch, ret, throw.
  cbv beta iota. rewrite Hok. cbn [negb]. cbv beta iota.
  destruct (await_json r st) as [[data | e] st1]; cbv beta iota.
  - match goal with
    | |- context [(if ?b then ?x else ?y) st1] =>
        destruct ((if b then x else y) st1) as [[[] | e] st2]
    end; reflexivity.
  - reflexivity.
Qed.

Lemma load_gallery_resumed (o : fetch_outcome) (st : page) (g : gallery_el) :
  gallery st = Some g ->
  load_gallery o st
  = (c <- resume (AwaitingFetch o) ;; c' <- resume c ;; ret tt) st.
Proof.
  intros Hg. unfold bind at 1. cbn [resume].
  rewrite (resume_fetch_present o st g Hg), (load_gallery_present o st g Hg).
  destruct o as [e | r]; [reflexivity |].
  destruct (ok r) eqn:Hok; [| reflexivity].
  unfold bind at 1. cbn [resume].
  rewrite (resume_json_load_gallery r st Hok).
  unfold bind, ret. rewrite (load_gallery_present _ st g Hg). reflexivity.
Qed.

Lemma resume_json_present (r : response) (st : page) (g : gallery_el) :
  gallery st = Some g -> ok r = true ->
  resume_json r st
  = (Normal Returned, show_display (settled (FetchResolved r)) g st).
Proof.
  intros Hg Hok. rewrite (resume_json_load_gallery r st Hok).
  unfold bind, ret. rewrite (load_gallery_present _ st g Hg). reflexivity.
Qed.

Lemma Forall_set_nth {A} (P : A -> Prop) (i : nat) (x : A) (l : list A) :
  Forall P l -> P x -> Forall P (set_nth i x l).
Proof.
  intros Hl Hx. revert i.
  induction Hl as [| y l Hy Hl IH]; intros i; [destruct i; constructor |].
  destruct i; cbn [set_nth]; constructor; auto.
Qed.

Lemma nth_error_set_nth {A} (i : nat) (x y : A) (l : list A) :
  nth_error l i = Some y -> nth_error (set_nth i x l) i = Some x.
Proof.
  revert i. induction l as [| z l IH]; intros [| i] H; try discriminate.
  - reflexivity.
  - cbn [set_nth nth_error]. now apply IH.
Qed.

Lemma nth_error_call_ok (calls : list call) (i : nat) (c : call) :
  Forall call_ok calls -> nth_error calls i = Some c -> call_ok c.
Proof.
  intros Hall Hc. rewrite Forall_forall in Hall.
  apply Hall. eapply nth_error_In. exact Hc.
Qed.

(** One resumption of a suspended call on a page with the gallery. *)
Lemma resume_present (c : call) (st : page) (g : gallery_el) :
  gallery st = Some g -> call_ok c ->
  resume c st
  = match c with
    | AwaitingFetch (FetchResolved r) =>
        if ok r then (Normal (AwaitingJson r), st)
        else (Normal Returned,
              show_display (settled (FetchResolved r)) g st)
    | AwaitingFetch o => (Normal Returned, show_display (settled o) g st)
    | AwaitingJson r =>
        (Normal Returned, show_display (settled (FetchResolved r)) g st)
    | Returned => (Normal Returned, st)
    end.
Proof.
  intros Hg Hc. destruct c as [o | r |]; cbn [resume].
  - rewrite (resume_fetch_present o st g Hg). destruct o; reflexivity.
  - now apply resume_json_present.
  - reflexivity.
Qed.

Lemma run_step_invariant (s : step) (sys : page * list call) :
  present (gallery (fst sys)) = true -> Forall call_ok (snd sys) ->
  present (gallery (fst (run_step s sys))) = true /\
  Forall call_ok (snd (run_step s sys)).
Proof.
  destruct sys as [st calls]. cbn [fst snd]. intros Hg Hall.
  destruct (gallery st) as [g |] eqn:Hgal; [| discriminate].
  destruct s as [o | i]; unfold run_step; cbn [fst snd].
  - rewrite (click_begin_present st g Hgal). cbn [fst snd]. split.
    + reflexivity.
    + apply Forall_app. split; [exact Hall | repeat constructor].
  - destruct (nth_error calls i) as [c |] eqn:Hc.
    + pose proof (nth_error_call_ok calls i c Hall Hc) as Hok.
      rewrite (resume_present c st g Hgal Hok).
      destruct c as [[e | r] | r |].
      * cbn [fst snd]. split; [reflexivity |].
        apply Forall_set_nth; [exact Hall | exact I].
      * destruct (ok r) eqn:Hr; cbn [fst snd].
        -- split; [now rewrite Hgal |].
           apply Forall_set_nth; [exact Hall | exact Hr].
        -- split; [reflexivity |].
           apply Forall_set_nth; [exact Hall | exact I].
      * cbn [fst snd]. split; [reflexivity |].
        apply Forall_set_nth; [exact Hall | exact I].
      * cbn [fst snd]. split; [now rewrite Hgal |].
        apply Forall_set_nth; [exact Hall | exact I].
    + cbn [fst snd]. split; [now rewrite Hgal | exact Hall].
Qed.

Lemma run_steps_invariant (steps : list step) (sys : page * list call) :
  present (gallery (fst sys)) = true -> Forall call_ok (snd sys) ->
  present (gallery (fst (run_steps steps sys))) = true /\
  Forall call_ok (snd (run_steps steps sys)).
Proof.
  revert sys. induction steps as [| s steps IH]; intros sys Hg Hall.
  - now split.
  - cbn [run_steps fold_left].
    destruct (run_step_invariant s sys Hg Hall) as [Hg' Hall'].
    exact (IH _ Hg' Hall').
Qed.

(** X5.  Overlapping clicks.  The handler of a click is suspended at
    line 179 until its fetch has settled and at line 185 until the body of
    its response has been read, and the calls of several clicks are
    resumed in any order.  After any history of clicks and resumptions on
    a page with the gallery, resuming a suspended call whose fetch outcome
    is [o] either ends the call, and then the gallery shows the display of
    [o], whatever the other calls had put there, and the console gains the
    log of [o]; or the call was waiting for its fetch, the response is ok,
    and the call waits again, for the body, with the page as it was.  So
    the gallery ends with the display of the call that ends last, which
    need be neither the call of the last click nor the one whose fetch
    settles last. *)
Theorem overlapping_clicks (steps : list step) (i : nat) (c : call)
    (o : fetch_outcome) (st : page) (g : gallery_el) :
  gallery st = Some g ->
  let sys := run_steps steps (st, []) in
  let sys' := run_step (Settle i) sys in
  nth_error (snd sys) i = Some c ->
  outcome_of c = Some o ->
  match nth_error (snd sys') i with
  | Some Returned =>
      gallery_children (fst sys') = display_children (settled o) /\
      console (fst sys') = console (fst sys) ++ display_log (settled o)
  | Some (AwaitingJson r) =>
      c = AwaitingFetch (FetchResolved r) /\ ok r = true /\
      fst sys' = fst sys
  | _ => False
  end.
Proof.
  intros Hg sys sys' Hc Ho.
  destruct (run_steps_invariant steps (st, [])) as [Hpres Hall].
  { cbn [fst]. now rewrite Hg. }
  { constructor. }
  fold sys in Hpres, Hall.
  destruct (gallery (fst sys)) as [g' |] eqn:Hg'; [| discriminate].
  pose proof (nth_error_call_ok _ i c Hall Hc) as Hok.
  subst sys'. unfold run_step. rewrite Hc.
  rewrite (resume_present c (fst sys) g' Hg' Hok).
  assert (Hshow : forall d,
    gallery_children (show_display d g' (fst sys)) = display_children d /\
    console (show_display d g' (fst sys))
    = console (fst sys) ++ display_log d).
  { intros d. destruct (fst sys). split; reflexivity. }
  destruct c as [[e | r] | r |]; cbn [outcome_of] in Ho.
  - injection Ho as <-. cbn [fst snd].
    rewrite (nth_error_set_nth i Returned _ _ Hc). apply Hshow.
  - injection Ho as <-. destruct (ok r) eqn:Hr; cbn [fst snd].
    + rewrite (nth_error_set_nth i (AwaitingJson r) _ _ Hc). auto.
    + rewrite (nth_error_set_nth i Returned _ _ Hc). apply Hshow.
  - injection Ho as <-. cbn [fst snd].
    rewrite (nth_error_set_nth i Returned _ _ Hc). apply Hshow.
  - discriminate.
Qed.

Lemma overlapping_clicks_witness :
  let before := fst (run_steps slow_body_steps (full_page, [])) in
  let after := fst (run_steps (slow_body_steps ++ [Settle 0]) (full_page, [])) in
  gallery_children before
  = [Parsed (error_markup (mkError "TypeError" "Failed to fetch"))] /\
  gallery_children after = [tile_child record_A] /\
  console after
  = [("Failed to load APOD data:", mkError "TypeError" "Failed to fetch")].
Proof.
  split; [reflexivity |].
  exact (overlapping_clicks slow_body_steps 0
           (AwaitingJson (mkResponse 200 (JsonParsed (PArray [Some record_A]))))
           (array_response 200 [Some record_A]) full_page (mkGallery true [])
           eq_refl eq_refl eq_refl).
Defined.

(** ** Tiles and events *)

(** X6.  The tile of a record: its image shows the thumbnail of a video
    record, or the url when the thumbnail is missing or empty, and the url
    of any other record; the source is empty when these are missing.  The
    tile shows the title, or "Untitled", and the date, or nothing. *)
Theorem render_item_tile (r : item) (st : page) (g : gallery_el) :
  gallery st = Some g ->
  result (render_item (Some r)) st = Normal tt /\
  exists el,
    gallery_children (exec (render_item (Some r)) st)
      = g_kids g ++ [Tile el (Some r)] /\
    (has_play_marker el = true <-> media_type r = Some "video") /\
    tile_image_src el
      = Some (if Js.seq (media_type r) "video"
              then Js.or_lit (Js.or (thumbnail_url r) (url r)) ""
              else Js.or_lit (url r) "") /\
    (media_type r = Some "video" ->
     forall t, thumbnail_url r = Some t -> t <> "" -> tile_image_src el = Some t) /\
    (media_type r <> Some "video" ->
     forall u, url r = Some u -> u <> "" -> tile_image_src el = Some u) /\
    tile_texts el = [Js.or_lit (title r) "Untitled"; Js.or_lit (date r) ""].
Proof.
  intros Hg. unfold result, exec. rewrite render_item_record.
  split; [reflexivity |].
  exists (tile_for r). unfold gallery_children. simpl. rewrite Hg. simpl.
  split; [reflexivity |]. split; [apply tile_marker |].
  assert (Hsrc : tile_image_src (tile_for r)
                 = Some (if Js.seq (media_type r) "video"
                         then Js.or_lit (Js.or (thumbnail_url r) (url r)) ""
                         else Js.or_lit (url r) "")).
  { unfold tile_for, Js.and_cond.
    destruct (media_type r) as [mt |]; simpl; [| reflexivity].
    destruct (String.eqb_spec mt "video") as [-> | Hne]; simpl; [reflexivity |].
    rewrite andb_false_r. reflexivity. }
  split; [exact Hsrc |]. split; [| split].
  - intros Hv t Ht Hne. rewrite Hsrc, (proj2 (seq_true _ _) Hv).
    f_equal. now apply or_lit_or_first.
  - intros Hv u Hu Hne. rewrite Hsrc.
    destruct (Js.seq (media_type r) "video") eqn:E.
    + apply seq_true in E. contradiction.
    + rewrite Hu. f_equal. now apply or_lit_nonempty.
  - unfold tile_for, tile_texts, tile_of.
    destruct (Js.and_cond (media_type r) (Js.seq (media_type r) "video"));
      cbn - [textContent text_kids]; rewrite !textContent_text_kids;
      reflexivity.
Qed.

Lemma render_item_tile_witness :
  exists el,
    gallery_children (exec (render_item (Some record_B)) full_page)
      = [Tile el (Some record_B)] /\
    tile_image_src el = Some "t2".
Proof.
  destruct (render_item_tile record_B full_page (mkGallery true []) eq_refl)
    as [_ [el [H1 [_ [H2 _]]]]].
  exists el. split; [exact H1 | exact H2].
Defined.

Lemma click_records_gallery (st : page) (g : gallery_el) (s : nat)
    (rs : list item) :
  gallery st = Some g -> (200 <= s <= 299)%nat -> rs <> [] ->
  gallery (exec (getImageBtn_click (array_response s (map Some rs))) st)
  = Some (mkGallery (g_parent g) (map tile_child rs)).
Proof.
  intros Hg Hs Hne. unfold exec. rewrite (click_present _ st g Hg).
  erewrite load_gallery_records;
    [| reflexivity | exact Hne | now apply ok_range].
  reflexivity.
Qed.

(** X7.  After a click has rendered the records [rs], a click on the tile
    at position [i] opens the modal with the record at position [i] of the
    response; a click at a position beyond the tiles does nothing. *)
Theorem tile_click_opens_its_record (st : page) (g : gallery_el) (s : nat)
    (rs : list item) (i : nat) :
  gallery st = Some g -> (200 <= s <= 299)%nat -> rs <> [] ->
  let st1 := exec (getImageBtn_click (array_response s (map Some rs))) st in
  (forall r, nth_error rs i = Some r ->
             dispatch (ClickTile i) st1 = openModal (Some r) st1) /\
  (length rs <= i -> dispatch (ClickTile i) st1 = (Normal tt, st1))%nat.
Proof.
  intros Hg Hs Hne st1.
  pose proof (click_records_gallery st g s rs Hg Hs Hne) as Hg1. fold st1 in Hg1.
  split.
  - intros r Hr. unfold dispatch, bind, get. cbv beta iota. rewrite Hg1.
    cbn [g_kids]. rewrite nth_error_map, Hr. reflexivity.
  - intros Hi. unfold dispatch, bind, get. cbv beta iota. rewrite Hg1.
    cbn [g_kids]. rewrite nth_error_map.
    rewrite (proj2 (nth_error_None rs i) Hi). reflexivity.
Qed.

Lemma tile_click_opens_its_record_witness :
  modalTitle
    (exec (dispatch (ClickTile 1))
       (exec (getImageBtn_click (array_response 200 [Some record_A; Some record_B]))
          full_page))
  = Some "B".
Proof.
  assert (Hs : (200 <= 200 <= 299)%nat) by lia.
  assert (Hne : [record_A; record_B] <> []) by discriminate.
  pose proof (proj1 (tile_click_opens_its_record full_page (mkGallery true [])
                       200 [record_A; record_B] 1 eq_refl Hs Hne)
                record_B eq_refl) as H.
  change (map Some [record_A; record_B]) with [Some record_A; Some record_B] in H.
  unfold exec at 1. rewrite H. reflexivity.
Defined.

(** ** Modal controller: frame, composition and invariants *)

Lemma openModal_outside (it : option item) (st : page) :
  outside_modal (exec (openModal it) st) = outside_modal st.
Proof.
  destruct_page st. destruct it as [r |]; destruct mdl; run_js;
    try reflexivity.
  destruct (Js.seq (media_type r) "video");
    destruct img, ttl, dat, expl; reflexivity.
Qed.

Lemma closeModal_outside (st : page) :
  outside_modal (exec closeModal st) = outside_modal st.
Proof.
  destruct_page st. destruct mdl; run_js; [| reflexivity].
  destruct img; reflexivity.
Qed.

Lemma keydown_cases (key : string) (st : page) :
  keydown key st = closeModal st \/ keydown key st = (Normal tt, st).
Proof.
  unfold keydown, bind, get, ret. cbv beta iota.
  destruct (modal st) as [m |]; [| now right].
  destruct ((key =? "Escape") &&
            match aria_hidden m with
            | Some v => v =? "false"
            | None => false
            end); [now left | now right].
Qed.

Lemma overlay_click_cases (dc : Js.value) (st : page) :
  overlay_click dc st = closeModal st \/ overlay_click dc st = (Normal tt, st).
Proof.
  unfold overlay_click. destruct (Js.truthy dc); [now left | now right].
Qed.

(** X8.  The modal controller never touches the rest of the page: opening,
    closing, the Escape listener and the overlay listener leave the trigger,
    the gallery with its tiles, the fact regions and the console as they
    are, and create or remove none of the regions of the modal. *)
Theorem modal_controller_frame (st : page) (it : option item) (key : string)
    (dc : Js.value) :
  outside_modal (exec (openModal it) st) = outside_modal st /\
  outside_modal (exec closeModal st) = outside_modal st /\
  outside_modal (exec (keydown key) st) = outside_modal st /\
  outside_modal (exec (overlay_click dc) st) = outside_modal st.
Proof.
  split; [apply openModal_outside |].
  split; [apply closeModal_outside |].
  split.
  - unfold exec. destruct (keydown_cases key st) as [-> | ->];
      [apply closeModal_outside | reflexivity].
  - unfold exec. destruct (overlay_click_cases dc st) as [-> | ->];
      [apply closeModal_outside | reflexivity].
Qed.

(** X9.  On a page with the modal, opening a record writes the title, or
    "Untitled", the date and the explanation, or nothing, into the text
    regions the page has, locks background scrolling, marks the modal as
    visible and moves the focus to the close button when there is one;
    without a close button the focus stays where it is. *)
Theorem openModal_texts_and_focus (st : page) (r : item) (m : modal_el) :
  modal st = Some m ->
  let st1 := exec (openModal (Some r)) st in
  modalTitle st1
    = option_map (fun _ => Js.or_lit (title r) "Untitled") (modalTitle st) /\
  modalDate st1 = option_map (fun _ => Js.or_lit (date r) "") (modalDate st) /\
  modalExplanation st1
    = option_map (fun _ => Js.or_lit (explanation r) "") (modalExplanation st) /\
  (forall t, title r = Some t -> t <> "" ->
             modalTitle st1 = option_map (fun _ => t) (modalTitle st)) /\
  (missing (title r) ->
   modalTitle st1 = option_map (fun _ => "Untitled") (modalTitle st)) /\
  modal st1 = Some (mkModal (Some "false")) /\
  body_overflow st1 = "hidden" /\
  active st1 = (if modalCloseBtn st then FocusCloseBtn else active st).
Proof.
  intros Hm st1. subst st1.
  destruct (openModal_texts st r m Hm) as [Ht [Hd He]].
  destruct (openModal_scroll_focus st r m Hm) as [Ho Ha].
  split; [exact Ht |]. split; [exact Hd |]. split; [exact He |].
  split; [| split; [| split; [| split]]].
  - intros t Hti Hne. rewrite Ht, Hti, (or_lit_nonempty t _ Hne). reflexivity.
  - intros Hmiss. rewrite Ht, (or_lit_missing _ _ Hmiss). reflexivity.
  - apply (openModal_modal st r m Hm).
  - exact Ho.
  - exact Ha.
Qed.

Lemma openModal_texts_and_focus_witness :
  modalTitle (exec (openModal (Some record_A)) full_page) = Some "A" /\
  active (exec (openModal (Some record_A)) full_page) = FocusCloseBtn.
Proof.
  destruct (openModal_texts_and_focus full_page record_A (mkModal (Some "true"))
              eq_refl) as [H1 [_ [_ [_ [_ [_ [_ H2]]]]]]].
  split; [exact H1 | exact H2].
Defined.

Lemma closeModal_page (st : page) (m : modal_el) :
  modal st = Some m ->
  exec closeModal st
  = set_body_overflow ""
      (set_modalImage
         (option_map (fun i => mkImage (img_parent i) "" "" (img_alt i))
            (modalImage st))
         (remove_modal_video (set_modal (Some (mkModal (Some "true"))) st))).
Proof. intros Hm. destruct_page st. simpl in Hm. subst. reflexivity. Qed.

(** X10.  Closing is idempotent on a page with unique ids (at most one
    element with the id "modal-video"): a second [closeModal] changes
    nothing.  After closing, the modal is hidden, scrolling is released, no
    embed is left and the image has no source. *)
Theorem closeModal_idempotent (st : page) (m : modal_el) :
  modal st = Some m -> (length (videos st) <= 1)%nat ->
  let st1 := exec closeModal st in
  exec closeModal st1 = st1 /\
  modal st1 = Some (mkModal (Some "true")) /\
  body_overflow st1 = "" /\
  videos st1 = [] /\
  option_map img_src (modalImage st1) = option_map (fun _ => "") (modalImage st).
Proof.
  intros Hm Hlen st1.
  assert (Hm1 : modal st1 = Some (mkModal (Some "true")))
    by apply (closeModal_modal st m Hm).
  assert (Hv1 : videos st1 = []).
  { subst st1. rewrite (closeModal_videos_removed st m Hm).
    destruct (videos st) as [| ? [| ? ?]]; simpl in *; [reflexivity .. | lia]. }
  split; [| split; [exact Hm1 | split; [| split; [exact Hv1 |]]]].
  - rewrite (closeModal_page st1 _ Hm1).
    subst st1. rewrite (closeModal_page st m Hm).
    destruct (remove_modal_video_unique st Hlen) as [Hb Ha].
    destruct_page st. simpl in Hm. subst.
    unfold remove_modal_video in *. simpl in *. rewrite Hb, Ha. simpl.
    destruct img; reflexivity.
  - apply (closeModal_scroll st m Hm).
  - subst st1. rewrite (closeModal_image st m Hm).
    destruct (modalImage st); reflexivity.
Qed.

Lemma closeModal_idempotent_witness :
  let st1 := exec closeModal (exec (openModal (Some video_record)) full_page) in
  exec closeModal st1 = st1.
Proof.
  apply (closeModal_idempotent (exec (openModal (Some video_record)) full_page)
           (mkModal (Some "false")) eq_refl).
  simpl. lia.
Defined.

(** The page that [openModal] leaves, field by field. *)
Lemma openModal_page (st : page) (r : item) (m : modal_el) :
  modal st = Some m ->
  exec (openModal (Some r)) st
  = mkPage (getImageBtn st) (gallery st) (fact_sections st)
      (Some (mkModal (Some "false")))
      (option_map (fun i =>
         if Js.seq (media_type r) "video"
         then mkImage (img_parent i) "none" (img_src i) (img_alt i)
         else mkImage (img_parent i) "" (Js.or_lit (Js.or (hdurl r) (url r)) "")
                (Js.or_lit (title r) "Space image"))
         (modalImage st))
      (option_map (fun _ => Js.or_lit (title r) "Untitled") (modalTitle st))
      (option_map (fun _ => Js.or_lit (date r) "") (modalDate st))
      (option_map (fun _ => Js.or_lit (explanation r) "") (modalExplanation st))
      (modalCloseBtn st) (modalOverlay st)
      (tl (videos_before st)
       ++ (if Js.seq (media_type r) "video" && negb (image_has_parent st)
           then [new_iframe (Js.or_lit (Js.or (url r) (thumbnail_url r)) "")]
           else []))
      ((if Js.seq (media_type r) "video" && image_has_parent st
        then [new_iframe (Js.or_lit (Js.or (url r) (thumbnail_url r)) "")]
        else [])
       ++ match videos_before st with
          | [] => tl (videos_after st)
          | _ :: _ => videos_after st
          end)
      "hidden"
      (if modalCloseBtn st then FocusCloseBtn else active st)
      (console st).
Proof.
  intros Hm. destruct_page st. simpl in Hm. subst. run_js.
  unfold insert_iframe, image_has_parent.
  destruct (Js.seq (media_type r) "video"); simpl;
    [| now rewrite app_nil_r].
  destruct img as [[[] ? ? ?] |]; simpl; now rewrite ?app_nil_r.
Qed.

(** X11.  On a page with the modal and unique ids, what an earlier
    [openModal] showed leaves no trace once a record that is not a video is
    opened: the page is the same as if only the later record had been
    opened.  Opening a video record instead only hides the image: its
    source and alt text stay those of the earlier record. *)
Theorem openModal_last_wins (st : page) (r1 r2 : item) (m : modal_el) :
  modal st = Some m -> (length (videos st) <= 1)%nat ->
  let st1 := exec (openModal (Some r1)) st in
  (media_type r2 <> Some "video" ->
   exec (openModal (Some r2)) st1 = exec (openModal (Some r2)) st) /\
  (media_type r2 = Some "video" ->
   modalImage (exec (openModal (Some r2)) st1)
   = option_map (fun i => mkImage (img_parent i) "none" (img_src i) (img_alt i))
       (modalImage st1)).
Proof.
  intros Hm Hlen st1.
  assert (Hm1 : modal st1 = Some (mkModal (Some "false")))
    by apply (openModal_modal st r1 m Hm).
  split.
  - intros Hv.
    assert (Hseq : Js.seq (media_type r2) "video" = false).
    { destruct (Js.seq (media_type r2) "video") eqn:E; [| reflexivity].
      apply seq_true in E. contradiction. }
    rewrite (openModal_page st1 r2 _ Hm1), (openModal_page st r2 m Hm).
    subst st1. rewrite (openModal_page st r1 m Hm).
    cbn [getImageBtn gallery fact_sections modalImage modalTitle modalDate
         modalExplanation modalCloseBtn modalOverlay videos_before
         videos_after active console].
    rewrite Hseq. unfold videos in Hlen. unfold image_has_parent.
    cbn [andb app].
    destruct (videos_before st) as [| v1 [| ? ?]],
             (videos_after st) as [| v2 [| ? ?]];
      simpl in Hlen; try lia;
      destruct (Js.seq (media_type r1) "video");
      destruct (modalImage st) as [[[] ? ? ?] |], (modalTitle st),
        (modalDate st), (modalExplanation st), (modalCloseBtn st);
      reflexivity.
  - intros Hv.
    rewrite (openModal_image st1 r2 _ Hm1), (proj2 (seq_true _ _) Hv).
    reflexivity.
Qed.

Lemma openModal_last_wins_witness :
  exec (openModal (Some hd_record)) (exec (openModal (Some video_record)) full_page)
  = exec (openModal (Some hd_record)) full_page.
Proof.
  apply (openModal_last_wins full_page video_record hd_record
           (mkModal (Some "true")) eq_refl).
  - simpl. lia.
  - discriminate.
Defined.

(** ** All listeners *)

(** X12.  No listener of the page lets an error escape: handling any event
    on any page completes normally. *)
Theorem dispatch_never_throws (e : event) (st : page) :
  result (dispatch e) st = Normal tt.
Proof.
  unfold result, dispatch, bind, get. cbv beta iota.
  destruct e as [o | i | | dc | key].
  - destruct (getImageBtn st); [apply getImageBtn_click_result | reflexivity].
  - destruct (gallery st) as [g |]; [| reflexivity].
    destruct (nth_error (g_kids g) i) as [[html | el it] |]; try reflexivity.
    apply openModal_never_throws.
  - destruct (modalCloseBtn st); [apply closeModal_never_throws | reflexivity].
  - destruct (modalOverlay st); [apply overlay_click_never_throws | reflexivity].
  - apply keydown_never_throws.
Qed.







(** ** Fact picker: selection and the fact region *)

(** X14.  Rounding and the index.  For a non-empty list of facts and a
    draw of [0, 1), the index the script computes is the floor of the
    exact product of the draw with the length, or that floor plus one.
    It is the exact floor whenever the product needs no rounding (it fits
    in 53 bits), and it is one more only when rounding the product to
    binary64 reaches that next integer exactly: so for the draw 0.7 and
    ten facts the index is 7, although the exact product is below 7. *)
Theorem fact_index_rounding (facts : list string) (r : double) :
  facts <> [] -> (Z.of_nat (length facts) < 2 ^ 32)%Z -> unit_double r ->
  let d := mul_length r (length facts) in
  (exact_index facts r <= fact_index facts r <= exact_index facts r + 1)%Z /\
  ((mantissa r * Z.of_nat (length facts) < 2 ^ 53)%Z ->
   fact_index facts r = exact_index facts r) /\
  (fact_index facts r = exact_index facts r + 1 ->
   mantissa d * 2 ^ (exponent d - exponent r)
   = (exact_index facts r + 1) * 2 ^ (- exponent r))%Z.
Proof.
  intros Hne Hlen Hr.
  destruct (unit_double_spec r Hr) as [Hm [He Hv]].
  apply floor_round_near_exact;
    [exact Hm | lia | exact Hv | now apply length_bounds].
Qed.

Lemma fact_index_rounding_witness :
  exact_index spaceFacts seven_tenths = 6%Z /\
  fact_index spaceFacts seven_tenths = 7%Z /\
  (exact_index spaceFacts seven_tenths <= fact_index spaceFacts seven_tenths
   <= exact_index spaceFacts seven_tenths + 1)%Z.
Proof.
  split; [reflexivity |]. split; [reflexivity |].
  apply (fact_index_rounding spaceFacts seven_tenths).
  - discriminate.
  - reflexivity.
  - reflexivity.
Defined.

(** X15.  The fact picker never throws and touches nothing but the first
    "did-you-know" region: the rest of the page, and any further element
    with that id, stay as they are. *)
Theorem showRandomFact_frame (facts : list string) (r : double) (st : page) :
  let st' := exec (showRandomFact_with facts r) st in
  result (showRandomFact_with facts r) st = Normal tt /\
  set_fact_sections [] st' = set_fact_sections [] st /\
  tl (fact_sections st') = tl (fact_sections st).
Proof.
  intros st'. subst st'. rewrite showRandomFact_with_exec.
  split; [| split].
  - unfold result, showRandomFact_with, bind, get, modify. simpl.
    destruct (fact_sections st); reflexivity.
  - destruct st; reflexivity.
  - simpl. destruct (fact_sections st); reflexivity.
Qed.

(** X16.  On a page without a "did-you-know" region the fact picker
    creates one: a section with the heading "Did you know?" followed by
    the paragraph that holds the picked fact, placed before the gallery
    when the page has a gallery with a parent, and first in the body
    otherwise. *)
Theorem showRandomFact_creates (r : double) (st : page) :
  fact_sections st = [] ->
  exists sec,
    fact_sections (exec (showRandomFact r) st) = [sec] /\
    f_tag sec = "section" /\
    node_prop "id" (Elem (f_tag sec) (f_props sec) []) = Some "did-you-know" /\
    map node_tag (f_kids sec) = [Some "h2"; Some "p"] /\
    map textContent (f_kids sec) = ["Did you know?"; pick_fact spaceFacts r] /\
    (f_place sec = BeforeGallery <->
     exists g, gallery st = Some g /\ g_parent g = true) /\
    (f_place sec = BodyFirst <->
     gallery st = None \/ exists g, gallery st = Some g /\ g_parent g = false).
Proof.
  intros Hnone. unfold showRandomFact. rewrite showRandomFact_with_exec, Hnone.
  eexists. split; [reflexivity |].
  unfold new_fact_section, ensure_p, set_p_text, querySelector. simpl.
  split; [reflexivity |]. split; [reflexivity |]. split; [reflexivity |].
  split.
  { change (["Did you know?";
             textContent (Elem "p" [("style.margin", "0.25rem 0 0 0")]
                            (text_kids (pick_fact spaceFacts r)))]
            = ["Did you know?"; pick_fact spaceFacts r]).
    now rewrite textContent_text_kids. }
  unfold insertion_place.
  destruct (gallery st) as [[[] kids] |]; simpl; split; split; intros H;
    first
      [ reflexivity
      | discriminate
      | eexists; split; reflexivity
      | right; eexists; split; reflexivity
      | left; reflexivity
      | destruct H as [g [[= <-] H]]; discriminate
      | destruct H as [g [H _]]; discriminate
      | destruct H as [H | [g [[= <-] H]]]; discriminate
      | destruct H as [H | [g [H _]]]; discriminate ].
Qed.

Lemma showRandomFact_creates_witness :
  exists sec,
    fact_sections (exec (showRandomFact three_quarters) full_page) = [sec] /\
    f_place sec = BeforeGallery.
Proof.
  destruct (showRandomFact_creates three_quarters full_page eq_refl)
    as [sec [H1 [_ [_ [_ [_ [H2 _]]]]]]].
  exists sec. split; [exact H1 |].
  apply H2. exists (mkGallery true []). split; reflexivity.
Defined.

Lemma first_map_middle (tag txt : string) (pre post : list node) (x x' : node) :
  first_map (set_text_in tag txt) pre = None ->
  set_text_in tag txt x = Some x' ->
  first_map (set_text_in tag txt) (pre ++ x :: post) = Some (pre ++ x' :: post).
Proof.
  intros Hpre Hx. induction pre as [| k pre IH]; simpl in *.
  - rewrite Hx. reflexivity.
  - destruct (set_text_in tag txt k); [discriminate |].
    destruct (first_map (set_text_in tag txt) pre); [discriminate |].
    rewrite (IH eq_refl). reflexivity.
Qed.

(** X17.  On a page that has a "did-you-know" region the fact picker
    reuses it.  When no paragraph is below the region, a paragraph holding
    the fact is appended after the children of the region, which are kept.
    When the first paragraph of the region is one of its children, the
    fact replaces the content of that paragraph, which keeps its place and
    its properties; the other children are kept. *)
Theorem showRandomFact_reuses (facts : list string) (r : double) (st : page)
    (sec : fact_el) (others : list fact_el) :
  fact_sections st = sec :: others ->
  let txt := pick_fact facts r in
  let after := fact_sections (exec (showRandomFact_with facts r) st) in
  (querySelector "p" sec = None ->
   after = mkFact (f_place sec) (f_tag sec) (f_props sec)
             (f_kids sec ++ [Elem "p" [] (text_kids txt)]) :: others) /\
  (forall pre ps kids post,
      f_kids sec = pre ++ Elem "p" ps kids :: post ->
      first_some (find_in "p") pre = None ->
      after = mkFact (f_place sec) (f_tag sec) (f_props sec)
                (pre ++ Elem "p" ps (text_kids txt) :: post) :: others).
Proof.
  intros Hs txt after. subst after.
  rewrite showRandomFact_with_exec, Hs. fold txt.
  cbn [fact_sections set_fact_sections]. split.
  - intros Hq. unfold ensure_p. rewrite Hq. unfold set_p_text.
    cbn [f_kids f_place f_tag f_props].
    unfold querySelector in Hq.
    rewrite (first_map_append "p" txt (f_kids sec) (Elem "p" [] [])
               (Elem "p" [] (text_kids txt)));
      [reflexivity | now apply first_some_none | reflexivity].
  - intros pre ps kids post Hk Hpre.
    assert (Hq : querySelector "p" sec = Some (Elem "p" ps kids)).
    { unfold querySelector. rewrite Hk. clear Hk.
      induction pre as [| k pre IH]; simpl in *; [reflexivity |].
      destruct (find_in "p" k); [discriminate | now apply IH]. }
    unfold ensure_p. rewrite Hq. unfold set_p_text. rewrite Hk.
    rewrite (first_map_middle "p" txt pre post (Elem "p" ps kids)
               (Elem "p" ps (text_kids txt)));
      [reflexivity | now apply first_some_none | reflexivity].
Qed.

Lemma showRandomFact_reuses_witness :
  fact_sections
    (exec (showRandomFact three_quarters)
       (set_fact_sections [mkFact InMarkup "div" [("id", "did-you-know")] []]
          full_page))
  = [mkFact InMarkup "div" [("id", "did-you-know")]
       [Elem "p" [] (text_kids (pick_fact spaceFacts three_quarters))]].
Proof.
  apply (showRandomFact_reuses spaceFacts three_quarters
           (set_fact_sections [mkFact InMarkup "div" [("id", "did-you-know")] []]
              full_page)
           (mkFact InMarkup "div" [("id", "did-you-know")] []) [] eq_refl).
  reflexivity.
Defined.

(** ** Modal controller: embeds and closing triggers *)

(** X18.  The count of elements with the id "modal-video", on a page with
    the modal and without any assumption on its ids: [openModal] removes
    one such element if there is one, the first in document order, and adds
    one, its iframe, for a video record; [closeModal] removes one if there
    is one.  So stale elements with that id are used up one per call, and a
    page with several of them can hold several embeds. *)
Theorem embed_count (st : page) (r : item) (m : modal_el) :
  modal st = Some m ->
  length (videos (exec (openModal (Some r)) st))
  = ((if Js.seq (media_type r) "video" then 1 else 0)
     + (length (videos st) - 1))%nat /\
  (media_type r <> Some "video" ->
   videos (exec (openModal (Some r)) st) = tl (videos st)) /\
  videos (exec closeModal st) = tl (videos st).
Proof.
  intros Hm. split; [| split].
  - rewrite (openModal_videos_all st r m Hm).
    unfold videos, remove_modal_video. simpl.
    destruct (Js.seq (media_type r) "video");
      destruct (videos_before st), (videos_after st); simpl;
      rewrite ?length_app; simpl; rewrite ?length_app; simpl; lia.
  - intros Hv. rewrite (openModal_videos_all st r m Hm).
    destruct (Js.seq (media_type r) "video") eqn:E.
    + apply seq_true in E. contradiction.
    + apply videos_remove.
  - apply (closeModal_videos_removed st m Hm).
Qed.

Lemma embed_count_witness :
  let stale := Elem "div" [("id", "modal-video")] [] in
  let st := set_videos [stale; stale] [] full_page in
  length
    (videos (exec (openModal (Some video_record))
               (exec (openModal (Some video_record)) st))) = 2%nat.
Proof.
  intros stale st.
  pose proof (embed_count st video_record (mkModal (Some "true")) eq_refl)
    as [H1 _].
  pose proof (embed_count (exec (openModal (Some video_record)) st) video_record
                (mkModal (Some "false")) eq_refl) as [H2 _].
  rewrite H2, H1. reflexivity.
Defined.

(** X19.  What closes the modal.  A click on the overlay closes it exactly
    when the [data-close] value of the click target is a non-empty string:
    with the attribute absent, or present with an empty value, the click
    changes nothing.  A key other than Escape changes nothing, and Escape
    changes nothing unless aria-hidden is "false". *)
Theorem closing_triggers (st : page) (dc : Js.value) (key : string) :
  (missing dc -> overlay_click dc st = (Normal tt, st)) /\
  (~ missing dc -> overlay_click dc st = closeModal st) /\
  (key <> "Escape" -> keydown key st = (Normal tt, st)) /\
  (option_map aria_hidden (modal st) <> Some (Some "false") ->
   keydown key st = (Normal tt, st)) /\
  (option_map aria_hidden (modal st) = Some (Some "false") ->
   keydown "Escape" st = closeModal st).
Proof.
  split; [| split; [| split; [| split]]].
  - intros [-> | ->]; reflexivity.
  - intros Hdc. unfold overlay_click.
    destruct dc as [s |]; simpl.
    + destruct (String.eqb_spec s "") as [-> | _]; [| reflexivity].
      exfalso. apply Hdc. right. reflexivity.
    + exfalso. apply Hdc. left. reflexivity.
  - intros Hk. unfold keydown, bind, get, ret. cbv beta iota.
    destruct (modal st); [| reflexivity].
    destruct (String.eqb_spec key "Escape"); [contradiction | reflexivity].
  - intros Ha. unfold keydown, bind, get, ret. cbv beta iota.
    destruct (modal st) as [[[v |]] |]; simpl in *;
      rewrite ?andb_false_r; try reflexivity.
    destruct (String.eqb_spec v "false") as [-> | _];
      [contradiction | now rewrite andb_false_r].
  - intros Ha. unfold keydown, bind, get, ret. cbv beta iota.
    destruct (modal st) as [[[v |]] |]; simpl in *; try discriminate.
    inversion Ha; subst. reflexivity.
Qed.

Lemma closing_triggers_witness :
  let st := exec (openModal (Some hd_record)) full_page in
  overlay_click (Some "") st = (Normal tt, st) /\
  keydown "Enter" st = (Normal tt, st).
Proof.
  intros st.
  pose proof (closing_triggers st (Some "") "Enter") as [H1 [_ [H2 _]]].
  split; [apply H1; right; reflexivity | apply H2; discriminate].
Defined.
